(** * Generalized Ising model: energy, single-flip delta, annealing schedule
      and exhaustive ground-state scan

    Shallow embedding of [Project_4_Ising_Annealer/Task_3.ipynb].

    Modelling conventions.
    - float64 values (the coefficients [E0], [h], [J], [K], [L], every energy
      and every temperature) are real numbers: rounding, infinities and NaN
      are abstracted away, arithmetic is exact.  The statements made in this
      representation do not rest on additions being exact; the value that
      [energy] computes is stated on [energy_in], the same method over the
      arithmetic of its coefficients, float64 ([float64]) included.
    - the spin vector is a numpy int64 array: entries are in [Z], products
      and negations wrap around at 64 bits ([wrap64]).
    - numpy arrays are (nested) lists; reading or writing outside the extent
      raises [IndexError]; a negative index counts from the end.
    - a method that mutates [self] is a function from the object to a result
      (value or exception) paired with the object as the call leaves it.
    - [np.random.rand(N) < 0.5] is an explicit sequence of booleans.
    - the reader of Hamiltonian files is modelled from the table of tokens
      on: opening the file, dropping its first line and splitting the lines
      at whitespace are left to Python, and so is [float], a parameter; an
      array of arbitrary rank is its shape and its entries. *)

From Stdlib Require Import List ZArith Bool Reals Lia Lra Ascii Sorted.
From Stdlib Require PrimFloat FloatOps SpecFloat Uint63.
Import ListNotations.

Open Scope R_scope.

(** ** Exceptions and results *)

Inductive exn : Type :=
| IndexError
| ValueError.

Inductive result (A : Type) : Type :=
| OK (a : A)
| Raise (e : exn).

Arguments OK {A} a.
Arguments Raise {A} e.

Definition bindR {A B : Type} (r : result A) (k : A -> result B) : result B :=
  match r with
  | OK a => k a
  | Raise e => Raise e
  end.

Notation "x <- e ;; k" := (bindR e (fun x => k))
  (at level 61, e at next level, right associativity).

(** [for x in xs: s = body(x, s)] where [body] may raise. *)
Fixpoint for_each {A S : Type} (xs : list A) (body : A -> S -> result S)
  (s : S) : result S :=
  match xs with
  | [] => OK s
  | x :: xs' => s' <- body x s ;; for_each xs' body s'
  end.

(** Python's [range(0, n)]. *)
Definition range (n : nat) : list nat := seq 0 n.

(** ** numpy integers and indexing *)

(** Two's complement wrap-around of an int64 result. *)
Definition wrap64 (z : Z) : Z :=
  ((z + 2 ^ 63) mod 2 ^ 64 - 2 ^ 63)%Z.

Definition int64 (z : Z) : Prop := (- 2 ^ 63 <= z < 2 ^ 63)%Z.

Definition mul64 (a b : Z) : Z := wrap64 (a * b).

(** [a[i]] for an index produced by [range]: plain position lookup. *)
Definition item {A : Type} (a : list A) (i : nat) : result A :=
  match nth_error a i with
  | Some x => OK x
  | None => Raise IndexError
  end.

(** Position designated by an arbitrary integer index on an axis of extent
    [len]: negative indices count from the end. *)
Definition np_index (len : nat) (i : Z) : result nat :=
  if ((0 <=? i) && (i <? Z.of_nat len))%Z then OK (Z.to_nat i)
  else if ((- Z.of_nat len <=? i) && (i <? 0))%Z
       then OK (Z.to_nat (Z.of_nat len + i))
       else Raise IndexError.

Definition getitem {A : Type} (a : list A) (i : Z) : result A :=
  k <- np_index (length a) i ;; item a k.

Fixpoint update {A : Type} (a : list A) (k : nat) (x : A) : list A :=
  match a, k with
  | [], _ => []
  | _ :: a', O => x :: a'
  | y :: a', S k' => y :: update a' k' x
  end.

Definition setitem {A : Type} (a : list A) (i : Z) (x : A) : result (list A) :=
  k <- np_index (length a) i ;; OK (update a k x).

Definition item2 {A : Type} (a : list (list A)) (i j : nat) : result A :=
  r <- item a i ;; item r j.

Definition item3 {A : Type} (a : list (list (list A))) (i j k : nat)
  : result A :=
  r <- item a i ;; item2 r j k.

Definition item4 {A : Type} (a : list (list (list (list A)))) (i j k l : nat)
  : result A :=
  r <- item a i ;; item3 r j k l.

(** ** The model object *)

Record GeneralizedIsingModel : Type := {
  E0 : R;
  h : list R;
  J : list (list R);
  K : list (list (list R));
  L : list (list (list (list R)));
  N : nat;
  num_spins : nat;
  spins : list Z
}.

Definition with_spins (self : GeneralizedIsingModel) (s : list Z)
  : GeneralizedIsingModel :=
  {| E0 := E0 self; h := h self; J := J self; K := K self; L := L self;
     N := N self; num_spins := num_spins self; spins := s |}.

Definition b2z (b : bool) : Z := if b then 1%Z else 0%Z.

(** [GeneralizedIsingModel.__init__]; [coins k] is entry [k] of
    [np.random.rand(N) < 0.5].  [np.random.rand] refuses a negative size. *)
Definition init (E0 : R) (h : list R) (J : list (list R))
  (K : list (list (list R))) (L : list (list (list (list R)))) (N : Z)
  (coins : nat -> bool) : result GeneralizedIsingModel :=
  if (N <? 0)%Z then Raise ValueError
  else OK {| E0 := E0; h := h; J := J; K := K; L := L;
             N := Z.to_nat N; num_spins := Z.to_nat N;
             spins := map (fun k => (2 * b2z (coins k) - 1)%Z)
                          (range (Z.to_nat N)) |}.

(** ** energy *)

(** The four running totals of [energy]. *)
Record totals : Type := {
  tot_h : R;
  tot_J : R;
  tot_K : R;
  tot_L : R
}.

Definition add_h (t : totals) (x : R) : totals :=
  {| tot_h := tot_h t + x; tot_J := tot_J t; tot_K := tot_K t;
     tot_L := tot_L t |}.
Definition add_J (t : totals) (x : R) : totals :=
  {| tot_h := tot_h t; tot_J := tot_J t + x; tot_K := tot_K t;
     tot_L := tot_L t |}.
Definition add_K (t : totals) (x : R) : totals :=
  {| tot_h := tot_h t; tot_J := tot_J t; tot_K := tot_K t + x;
     tot_L := tot_L t |}.
Definition add_L (t : totals) (x : R) : totals :=
  {| tot_h := tot_h t; tot_J := tot_J t; tot_K := tot_K t;
     tot_L := tot_L t + x |}.

(** [self.h[i]*self.spins[i]] *)
Definition term_h (self : GeneralizedIsingModel) (i : nat) : result R :=
  c <- item (h self) i ;;
  si <- item (spins self) i ;;
  OK (c * IZR si).

(** [(self.J[i,j])*(self.spins[i]*self.spins[j])] *)
Definition term_J (self : GeneralizedIsingModel) (i j : nat) : result R :=
  c <- item2 (J self) i j ;;
  si <- item (spins self) i ;;
  sj <- item (spins self) j ;;
  OK (c * IZR (mul64 si sj)).

(** [(self.K[i,j,k])*(self.spins[i]*self.spins[j]*self.spins[k])] *)
Definition term_K (self : GeneralizedIsingModel) (i j k : nat) : result R :=
  c <- item3 (K self) i j k ;;
  si <- item (spins self) i ;;
  sj <- item (spins self) j ;;
  sk <- item (spins self) k ;;
  OK (c * IZR (mul64 (mul64 si sj) sk)).

(** [(self.L[i,j,k,l])*(self.spins[i]*self.spins[j]*self.spins[k]*self.spins[l])] *)
Definition term_L (self : GeneralizedIsingModel) (i j k l : nat) : result R :=
  c <- item4 (L self) i j k l ;;
  si <- item (spins self) i ;;
  sj <- item (spins self) j ;;
  sk <- item (spins self) k ;;
  sl <- item (spins self) l ;;
  OK (c * IZR (mul64 (mul64 (mul64 si sj) sk) sl)).

Definition energy (self : GeneralizedIsingModel) : result R :=
  t <- for_each (range (N self)) (fun i t =>
         x <- term_h self i ;;
         for_each (range (N self)) (fun j t =>
           x <- term_J self i j ;;
           for_each (range (N self)) (fun k t =>
             x <- term_K self i j k ;;
             for_each (range (N self)) (fun l t =>
               x <- term_L self i j k l ;;
               OK (add_L t x))
             (add_K t x))
           (add_J t x))
         (add_h t x))
       {| tot_h := 0; tot_J := 0; tot_K := 0; tot_L := 0 |} ;;
  OK (E0 self + tot_h t + tot_J t + tot_K t + tot_L t).

(** ** Methods that mutate the object *)

(** A call on [self]: the value returned or the exception raised, together
    with the object as the call leaves it. *)
Definition M (A : Type) : Type :=
  GeneralizedIsingModel -> result A * GeneralizedIsingModel.

Definition ret {A : Type} (a : A) : M A := fun self => (OK a, self).

Definition bindM {A B : Type} (m : M A) (k : A -> M B) : M B :=
  fun self =>
    match m self with
    | (OK a, self') => k a self'
    | (Raise e, self') => (Raise e, self')
    end.

Notation "x <~ e ;; k" := (bindM e (fun x => k))
  (at level 61, e at next level, right associativity).

(** A computation that only reads the object. *)
Definition read {A : Type} (f : GeneralizedIsingModel -> result A) : M A :=
  fun self => (f self, self).

(** [self.spins = s] *)
Definition set_spins (s : list Z) : M unit :=
  fun self => (OK tt, with_spins self s).

(** [self.spins[i] = x] *)
Definition setitem_spins (i : Z) (x : Z) : M unit :=
  fun self =>
    match setitem (spins self) i x with
    | OK s' => (OK tt, with_spins self s')
    | Raise e => (Raise e, self)
    end.

Fixpoint for_each_M {A S : Type} (xs : list A) (body : A -> S -> M S)
  (s : S) : M S :=
  match xs with
  | [] => ret s
  | x :: xs' => s' <~ body x s ;; for_each_M xs' body s'
  end.

Definition energy_diff (i : Z) : M R :=
  e1 <~ read energy ;;
  (* flip i temporarily *)
  s <~ read (fun self => getitem (spins self) i) ;;
  _ <~ setitem_spins i (mul64 (-1) s) ;;
  e2 <~ read energy ;;
  (* revert *)
  s' <~ read (fun self => getitem (spins self) i) ;;
  _ <~ setitem_spins i (mul64 (-1) s') ;;
  ret (e2 - e1).

(** ** Annealing schedule *)


(** ** Exhaustive search *)

(** [dim = np.arange(2 ** n)];
    [space = ((dim[:, None] & (1 << np.arange(n))) > 0)];
    [space = 2*space.astype(int) - 1]. *)
Definition space (n : nat) : list (list Z) :=
  map (fun d =>
         map (fun b => (2 * b2z (Z.land d (Z.shiftl 1 b) >? 0) - 1)%Z)
             (map Z.of_nat (range n)))
      (map Z.of_nat (range (2 ^ n))).

(** The scan over [space]; the value is the final [min]. *)
Definition exhaustive_search : M (option R) :=
  n <~ read (fun self => OK (num_spins self)) ;;
  for_each_M (range (2 ^ n)) (fun i min =>
      row <~ read (fun _ => item (space n) i) ;;
      _ <~ set_spins row ;;
      temp_energy <~ read energy ;;
      match min with
      | None => ret (Some temp_energy)
      | Some m =>
          if Rgt_dec m temp_energy then ret (Some temp_energy)
          else ret (Some m)
      end)
    None.

(** ** Specification-side vocabulary *)

(** A spin value. *)
Definition is_spin (z : Z) : Prop := z = 1%Z \/ z = (-1)%Z.

(** A spin configuration of [n] sites. *)
Definition configuration (n : nat) (s : list Z) : Prop :=
  length s = n /\ Forall is_spin s.

(** Extents of the coefficient tensors. *)
Definition shape1 (n : nat) (a : list R) : Prop := length a = n.
Definition shape2 (n : nat) (a : list (list R)) : Prop :=
  length a = n /\ Forall (shape1 n) a.
Definition shape3 (n : nat) (a : list (list (list R))) : Prop :=
  length a = n /\ Forall (shape2 n) a.
Definition shape4 (n : nat) (a : list (list (list (list R)))) : Prop :=
  length a = n /\ Forall (shape3 n) a.

(** The data-model invariant: every tensor has extent [N] on every axis. *)
Definition consistent (self : GeneralizedIsingModel) : Prop :=
  shape1 (N self) (h self) /\ shape2 (N self) (J self) /\
  shape3 (N self) (K self) /\ shape4 (N self) (L self) /\
  num_spins self = N self.

(** A model holding a spin configuration. *)
Definition well_formed (self : GeneralizedIsingModel) : Prop :=
  consistent self /\ configuration (N self) (spins self).

(** Sum of [f 0 .. f (n-1)]. *)
Fixpoint big_sum (n : nat) (f : nat -> R) : R :=
  match n with
  | O => 0
  | S n' => big_sum n' f + f n'
  end.

(** Entries of the tensors as total functions (0 outside the extent). *)
Definition at1 (a : list R) (i : nat) : R := nth i a 0.
Definition at2 (a : list (list R)) (i j : nat) : R := at1 (nth i a []) j.
Definition at3 (a : list (list (list R))) (i j k : nat) : R :=
  at2 (nth i a []) j k.
Definition at4 (a : list (list (list (list R)))) (i j k l : nat) : R :=
  at3 (nth i a []) j k l.

(** The Hamiltonian as the specification writes it: every index ranges over
    all of [0,N) independently. *)
Definition hamiltonian (self : GeneralizedIsingModel) (s : nat -> R) : R :=
  let n := N self in
  E0 self
  + big_sum n (fun i => at1 (h self) i * s i)
  + big_sum n (fun i => big_sum n (fun j => at2 (J self) i j * s i * s j))
  + big_sum n (fun i => big_sum n (fun j => big_sum n (fun k =>
      at3 (K self) i j k * s i * s j * s k)))
  + big_sum n (fun i => big_sum n (fun j => big_sum n (fun k =>
      big_sum n (fun l => at4 (L self) i j k l * s i * s j * s k * s l)))).

(** Entry [i] of a configuration, as a real. *)
Definition spin_at (s : list Z) (i : nat) : R := IZR (nth i s 0%Z).

(** [s] with entry [i] negated. *)
Definition flip_site (s : list Z) (i : nat) : list Z :=
  update s i (- nth i s 0)%Z.

(** ** Auxiliary definitions used in the proofs *)

(** Componentwise algebra of the running totals. *)
Definition tzero : totals :=
  {| tot_h := 0; tot_J := 0; tot_K := 0; tot_L := 0 |}.

Definition tplus (t u : totals) : totals :=
  {| tot_h := tot_h t + tot_h u; tot_J := tot_J t + tot_J u;
     tot_K := tot_K t + tot_K u; tot_L := tot_L t + tot_L u |}.

Fixpoint tsum (n : nat) (g : nat -> totals) : totals :=
  match n with
  | O => tzero
  | S n' => tplus (tsum n' g) (g n')
  end.

(** Values of the four kinds of terms, as the code multiplies them. *)
Definition val_h (self : GeneralizedIsingModel) (i : nat) : R :=
  at1 (h self) i * IZR (nth i (spins self) 0%Z).

Definition val_J (self : GeneralizedIsingModel) (i j : nat) : R :=
  at2 (J self) i j
  * IZR (mul64 (nth i (spins self) 0%Z) (nth j (spins self) 0%Z)).

Definition val_K (self : GeneralizedIsingModel) (i j k : nat) : R :=
  at3 (K self) i j k
  * IZR (mul64 (mul64 (nth i (spins self) 0%Z) (nth j (spins self) 0%Z))
               (nth k (spins self) 0%Z)).

Definition val_L (self : GeneralizedIsingModel) (i j k l : nat) : R :=
  at4 (L self) i j k l
  * IZR (mul64 (mul64 (mul64 (nth i (spins self) 0%Z)
                             (nth j (spins self) 0%Z))
                      (nth k (spins self) 0%Z))
               (nth l (spins self) 0%Z)).

(** Contribution of one pass of each loop to the totals. *)
Definition pass_l (self : GeneralizedIsingModel) (i j k l : nat) : totals :=
  {| tot_h := 0; tot_J := 0; tot_K := 0; tot_L := val_L self i j k l |}.

Definition pass_k (self : GeneralizedIsingModel) (i j k : nat) : totals :=
  {| tot_h := 0; tot_J := 0; tot_K := val_K self i j k;
     tot_L := big_sum (N self) (val_L self i j k) |}.

Definition pass_j (self : GeneralizedIsingModel) (i j : nat) : totals :=
  {| tot_h := 0; tot_J := val_J self i j;
     tot_K := big_sum (N self) (val_K self i j);
     tot_L := big_sum (N self) (fun k =>
                big_sum (N self) (val_L self i j k)) |}.

Definition pass_i (self : GeneralizedIsingModel) (i : nat) : totals :=
  {| tot_h := val_h self i;
     tot_J := big_sum (N self) (val_J self i);
     tot_K := big_sum (N self) (fun j => big_sum (N self) (val_K self i j));
     tot_L := big_sum (N self) (fun j => big_sum (N self) (fun k =>
                big_sum (N self) (val_L self i j k))) |}.

(** The value of [energy], products still in machine arithmetic. *)
Definition energy_value (self : GeneralizedIsingModel) : R :=
  let n := N self in
  E0 self
  + big_sum n (val_h self)
  + big_sum n (fun i => big_sum n (val_J self i))
  + big_sum n (fun i => big_sum n (fun j => big_sum n (val_K self i j)))
  + big_sum n (fun i => big_sum n (fun j => big_sum n (fun k =>
      big_sum n (val_L self i j k)))).

(** A tensor of rank one that is identically zero. *)
Definition all_zero (a : list R) : Prop := Forall (fun x => x = 0) a.

(** The configuration with every spin negated. *)
Definition negate (s : list Z) : list Z := map Z.opp s.

(** Two results end the same way: both are values, or both raise the same
    exception. *)
Definition same_outcome {A B : Type} (r1 : result A) (r2 : result B) : Prop :=
  match r1, r2 with
  | OK _, OK _ => True
  | Raise e1, Raise e2 => e1 = e2
  | _, _ => False
  end.

(** The spins while the flip at position [k] is in place. *)
Definition flipped_at (self : GeneralizedIsingModel) (k : nat)
  : GeneralizedIsingModel :=
  with_spins self
    (update (spins self) k (mul64 (-1) (nth k (spins self) 0%Z))).

(** Spin selected by bit [b] of [d]: set gives +1, clear gives -1. *)
Definition spin_of_bit (d : Z) (b : nat) : Z :=
  if Z.testbit d (Z.of_nat b) then 1%Z else (-1)%Z.

(** Row of [space] for the integer [d]. *)
Definition space_row (n : nat) (d : Z) : list Z :=
  map (spin_of_bit d) (range n).

(** The integer whose bits are read off a configuration. *)
Fixpoint encode (s : list Z) : Z :=
  match s with
  | [] => 0%Z
  | x :: s' => (b2z (x =? 1) + 2 * encode s')%Z
  end.

(** One pass of the scan loop, for the row [space[i]]. *)
Definition search_step (row : list Z) (min : option R) : M (option R) :=
  _ <~ set_spins row ;;
  temp_energy <~ read energy ;;
  match min with
  | None => ret (Some temp_energy)
  | Some m =>
      if Rgt_dec m temp_energy then ret (Some temp_energy) else ret (Some m)
  end.

(** The update of [min] by one energy. *)
Definition keep_min (min : option R) (e : R) : option R :=
  match min with
  | None => Some e
  | Some m => if Rgt_dec m e then Some e else Some m
  end.

(** ** Concrete models *)

(** A small model used to exercise the statements: two sites, every kind of
    coefficient present, repeated-index entries included. *)
Definition demo : GeneralizedIsingModel :=
  {| E0 := 1;
     h := [1; 2];
     J := [[1; 0]; [3; 1]];
     K := [[[0; 1]; [0; 0]]; [[0; 0]; [2; 0]]];
     L := [[[[1; 0]; [0; 0]]; [[0; 0]; [0; 0]]];
           [[[0; 0]; [0; 1]]; [[0; 0]; [0; 0]]]];
     N := 2; num_spins := 2;
     spins := [1; -1]%Z |}.

(** A two-site model with only even-body terms. *)
Definition even_demo : GeneralizedIsingModel :=
  {| E0 := 1;
     h := [0; 0];
     J := [[1; 0]; [3; 1]];
     K := [[[0; 0]; [0; 0]]; [[0; 0]; [0; 0]]];
     L := [[[[1; 0]; [0; 0]]; [[0; 0]; [0; 0]]];
           [[[0; 0]; [0; 1]]; [[0; 0]; [0; 0]]]];
     N := 2; num_spins := 2;
     spins := [1; -1]%Z |}.

(** The tensors of a one-site model stored with N = 2. *)
Definition mismatched : GeneralizedIsingModel :=
  {| E0 := 0;
     h := [1];
     J := [[0]];
     K := [[[0]]];
     L := [[[[0]]]];
     N := 2; num_spins := 2;
     spins := [1; 1]%Z |}.

(** The model of the end-to-end scenario: four sites, [J[i,i] = -1], every
    other coefficient zero. *)
Definition diagonal : GeneralizedIsingModel :=
  let z1 := [0; 0; 0; 0] in
  let z2 := [z1; z1; z1; z1] in
  let z3 := [z2; z2; z2; z2] in
  {| E0 := 0;
     h := z1;
     J := [[-1; 0; 0; 0]; [0; -1; 0; 0]; [0; 0; -1; 0]; [0; 0; 0; -1]];
     K := z3;
     L := [z3; z3; z3; z3];
     N := 4; num_spins := 4;
     spins := [1; 1; 1; 1]%Z |}.


(** ** Vocabulary for the further properties *)

(** A tensor reaches at least extent [n] on every axis that [energy] walks:
    what its lookups need, entries beyond being allowed. *)
Definition covers1 (n : nat) (a : list R) : Prop := (n <= length a)%nat.
Definition covers2 (n : nat) (a : list (list R)) : Prop :=
  (n <= length a)%nat /\
  forall i, (i < n)%nat -> covers1 n (nth i a []).
Definition covers3 (n : nat) (a : list (list (list R))) : Prop :=
  (n <= length a)%nat /\
  forall i, (i < n)%nat -> covers2 n (nth i a []).
Definition covers4 (n : nat) (a : list (list (list (list R)))) : Prop :=
  (n <= length a)%nat /\
  forall i, (i < n)%nat -> covers3 n (nth i a []).

Definition covers_tensors (self : GeneralizedIsingModel) : Prop :=
  covers1 (N self) (h self) /\ covers2 (N self) (J self) /\
  covers3 (N self) (K self) /\ covers4 (N self) (L self).

Definition covers (self : GeneralizedIsingModel) : Prop :=
  covers_tensors self /\ (N self <= length (spins self))%nat.

(** The leading block of extent [n] of a tensor. *)
Definition trunc1 (n : nat) (a : list R) : list R := firstn n a.
Definition trunc2 (n : nat) (a : list (list R)) : list (list R) :=
  map (trunc1 n) (firstn n a).
Definition trunc3 (n : nat) (a : list (list (list R)))
  : list (list (list R)) :=
  map (trunc2 n) (firstn n a).
Definition trunc4 (n : nat) (a : list (list (list (list R))))
  : list (list (list (list R))) :=
  map (trunc3 n) (firstn n a).

(** The object cut down to the leading block of extent [N] of every array. *)
Definition leading_block (self : GeneralizedIsingModel)
  : GeneralizedIsingModel :=
  {| E0 := E0 self;
     h := trunc1 (N self) (h self);
     J := trunc2 (N self) (J self);
     K := trunc3 (N self) (K self);
     L := trunc4 (N self) (L self);
     N := N self; num_spins := N self;
     spins := firstn (N self) (spins self) |}.

(** Tensors that are identically zero. *)
Definition zero_tensors (self : GeneralizedIsingModel) : Prop :=
  all_zero (h self) /\ Forall all_zero (J self) /\
  Forall (Forall all_zero) (K self) /\
  Forall (Forall (Forall all_zero)) (L self).

(** ** Reading a Hamiltonian *)

(** A Python string, character by character. *)
Definition str : Type := list ascii.

(** A numpy array of float64 of any rank: its shape and its entries, the
    entry of an index tuple being meaningful when the tuple is within the
    shape. *)
Record ndarray : Type := {
  shape : list nat;
  data : list nat -> R
}.

(** [np.zeros(shape)]; the limits numpy puts on the rank and on the size of
    an array are not represented: what is proved of the reader is about the
    tables on which it returns. *)
Definition np_zeros (shape : list nat) : ndarray :=
  {| shape := shape; data := fun _ => 0 |}.

(** Every index of the tuple is within the extent of its axis, and the tuple
    is not longer than the shape. *)
Fixpoint within (idx shape : list nat) : bool :=
  match idx, shape with
  | [], _ => true
  | i :: idx', n :: shape' => (i <? n)%nat && within idx' shape'
  | _ :: _, [] => false
  end.

(** [a[tuple(idx)] = v] for a tuple of non-negative integers: the entry is
    set when the tuple has one index per axis, a shorter tuple sets the whole
    sub-array it designates. *)
Definition nd_setitem (a : ndarray) (idx : list nat) (v : R)
  : result ndarray :=
  if within idx (shape a)
  then OK {| shape := shape a;
             data := fun j =>
               if list_eq_dec Nat.eq_dec (firstn (length idx) j) idx
               then v else data a j |}
  else Raise IndexError.

(** The inner loop of the reader over [enumerate(sites)]: the count and the
    positions of the characters ['z']. *)
Definition scan_sites (sites : str) : nat * list nat :=
  fold_left
    (fun (acc : nat * list nat) (ix : nat * ascii) =>
       if Ascii.eqb (snd ix) "z"%char
       then (S (fst acc), snd acc ++ [fst ix])
       else acc)
    (combine (seq 0 (length sites)) sites)
    (0%nat, []).

(** [read_generalized_ising_hamiltonian], from the table of tokens on: the
    argument is [compressed_hamiltonian], one tuple of whitespace-separated
    tokens per line after the first; [float] is Python's conversion of a
    token to a float, which raises on a malformed token. *)
Definition read_generalized_ising_hamiltonian (float : str -> result R)
  (compressed_hamiltonian : list (list str)) : result (list ndarray) :=
  first <- item compressed_hamiltonian 0 ;;
  sites0 <- item first 0 ;;
  let num_sites := length sites0 in
  let hamiltonian_terms :=
    map (fun i => np_zeros (repeat num_sites i)) (range (num_sites + 1)) in
  for_each compressed_hamiltonian
    (fun line hamiltonian_terms =>
       match line with
       | [sites; val] =>
           let num_zs := fst (scan_sites sites) in
           let site_nums := snd (scan_sites sites) in
           v <- float val ;;
           t <- item hamiltonian_terms num_zs ;;
           t' <- nd_setitem t site_nums v ;;
           OK (update hamiltonian_terms num_zs t')
       | _ => Raise ValueError
       end)
    hamiltonian_terms.

(** The arrays of rank 0 to 4 in the representation the model object uses:
    a scalar, and nested lists along the axes of the shape. *)
Definition as_scalar (a : ndarray) : R := data a [].

Definition as_vector (a : ndarray) : list R :=
  map (fun i => data a [i]) (range (nth 0 (shape a) 0%nat)).

Definition as_matrix (a : ndarray) : list (list R) :=
  map (fun i =>
         map (fun j => data a [i; j]) (range (nth 1 (shape a) 0%nat)))
      (range (nth 0 (shape a) 0%nat)).

Definition as_rank3 (a : ndarray) : list (list (list R)) :=
  map (fun i =>
         map (fun j =>
                map (fun k => data a [i; j; k])
                    (range (nth 2 (shape a) 0%nat)))
             (range (nth 1 (shape a) 0%nat)))
      (range (nth 0 (shape a) 0%nat)).

Definition as_rank4 (a : ndarray) : list (list (list (list R))) :=
  map (fun i =>
         map (fun j =>
                map (fun k =>
                       map (fun l => data a [i; j; k; l])
                           (range (nth 3 (shape a) 0%nat)))
                    (range (nth 2 (shape a) 0%nat)))
             (range (nth 1 (shape a) 0%nat)))
      (range (nth 0 (shape a) 0%nat)).

(** [E0, h, J, K, L = read_generalized_ising_hamiltonian(...)] followed by
    [GeneralizedIsingModel(E0,h,J,K,L,4)]: the unpacking wants exactly five
    arrays. *)
Definition load_model (float : str -> result R)
  (compressed_hamiltonian : list (list str)) (coins : nat -> bool)
  : result GeneralizedIsingModel :=
  terms <- read_generalized_ising_hamiltonian float compressed_hamiltonian ;;
  match terms with
  | [E0; h; J; K; L] =>
      init (as_scalar E0) (as_vector h) (as_matrix J) (as_rank3 K)
           (as_rank4 L) 4 coins
  | _ => Raise ValueError
  end.

(** Positions of the characters ['z'] of a string, counted from [i]. *)
Fixpoint z_positions_from (i : nat) (sites : str) : list nat :=
  match sites with
  | [] => []
  | x :: rest =>
      if Ascii.eqb x "z"%char then i :: z_positions_from (S i) rest
      else z_positions_from (S i) rest
  end.

Definition z_positions (sites : str) : list nat := z_positions_from 0 sites.

(** The coefficient a table of lines gives to an index tuple: the value of
    the last line whose ['z'] positions are this tuple, or [init] when there
    is none. *)
Definition entry_after (float : str -> result R) (lines : list (list str))
  (init : list nat -> R) : list nat -> R :=
  fold_left
    (fun (f : list nat -> R) (line : list str) =>
       match line with
       | [sites; val] =>
           match float val with
           | OK v =>
               fun idx =>
                 if list_eq_dec Nat.eq_dec idx (z_positions sites)
                 then v else f idx
           | Raise _ => f
           end
       | _ => f
       end)
    lines init.

(** The number of sites the reader takes from the table: the length of the
    first token of the first line. *)
Definition num_sites_of (compressed_hamiltonian : list (list str)) : nat :=
  length (nth 0 (nth 0 compressed_hamiltonian []) []).

(** The lines the reader goes through without raising. *)
Definition acceptable_line (float : str -> result R) (num_sites : nat)
  (line : list str) : Prop :=
  exists sites val v,
    line = [sites; val] /\ float val = OK v /\
    Forall (fun p => (p < num_sites)%nat) (z_positions sites).

(** One pass of the reader's loop, for one line of the table. *)
Definition read_line (float : str -> result R) (line : list str)
  (hamiltonian_terms : list ndarray) : result (list ndarray) :=
  match line with
  | [sites; val] =>
      let num_zs := fst (scan_sites sites) in
      let site_nums := snd (scan_sites sites) in
      v <- float val ;;
      t <- item hamiltonian_terms num_zs ;;
      t' <- nd_setitem t site_nums v ;;
      OK (update hamiltonian_terms num_zs t')
  | _ => Raise ValueError
  end.

(** What the reader's loop maintains: one array per rank from 0 to [n], of
    extent [n] on every axis, whose entries are given by [f]. *)
Definition terms_inv (n : nat) (terms : list ndarray) (f : list nat -> R)
  : Prop :=
  length terms = (n + 1)%nat /\
  (forall r, (r <= n)%nat -> shape (nth r terms (np_zeros [])) = repeat n r) /\
  (forall idx, (length idx <= n)%nat ->
     data (nth (length idx) terms (np_zeros [])) idx = f idx).

(** ** Further concrete inputs *)

(** A one-site model stored in arrays of extent 2. *)
Definition oversized : GeneralizedIsingModel :=
  {| E0 := 1;
     h := [2; 7];
     J := [[3; 7]; [7; 7]];
     K := [[[4; 7]; [7; 7]]; [[7; 7]; [7; 7]]];
     L := [[[[5; 7]; [7; 7]]; [[7; 7]; [7; 7]]];
           [[[7; 7]; [7; 7]]; [[7; 7]; [7; 7]]]];
     N := 1; num_spins := 1;
     spins := [-1; 1]%Z |}.

(** A two-site model without couplings, holding integers that are no
    spins. *)
Definition uncoupled : GeneralizedIsingModel :=
  {| E0 := 3;
     h := [0; 0];
     J := [[0; 0]; [0; 0]];
     K := [[[0; 0]; [0; 0]]; [[0; 0]; [0; 0]]];
     L := [[[[0; 0]; [0; 0]]; [[0; 0]; [0; 0]]];
           [[[0; 0]; [0; 0]]; [[0; 0]; [0; 0]]]];
     N := 2; num_spins := 2;
     spins := [5; -8]%Z |}.

(** A conversion of tokens that knows the one-digit numbers only. *)
Definition digit_float (s : str) : result R :=
  match s with
  | [c] =>
      let d := nat_of_ascii c in
      if ((48 <=? d) && (d <=? 57))%nat then OK (INR (d - 48))
      else Raise ValueError
  | _ => Raise ValueError
  end.

(** A table for four sites; two lines have their ['z'] at positions 1
    and 3. *)
Definition table4 : list (list str) :=
  [ [["-"; "-"; "-"; "-"]; ["1"]];
    [["z"; "-"; "-"; "-"]; ["2"]];
    [["x"; "z"; "-"; "z"]; ["3"]];
    [["y"; "z"; "-"; "z"]; ["4"]];
    [["z"; "z"; "z"; "-"]; ["5"]];
    [["z"; "z"; "z"; "z"]; ["6"]] ]%char.

(** A table for two sites. *)
Definition table2 : list (list str) :=
  [ [["z"; "-"]; ["1"]];
    [["z"; "z"]; ["2"]] ]%char.

(** A one-site model whose minimum is at spin +1, holding spin +1. *)
Definition favours_up : GeneralizedIsingModel :=
  {| E0 := 0;
     h := [-1];
     J := [[0]];
     K := [[[0]]];
     L := [[[[0]]]];
     N := 1; num_spins := 1;
     spins := [1]%Z |}.

(** ** energy over the arithmetic of its coefficients *)

(** What [energy] asks of the type of the coefficients: the [0.0] the totals
    start from, [+], [*], and the conversion of an int64 product of spins
    that numpy inserts before it multiplies a float64 by it. *)
Record arithmetic (F : Type) : Type := {
  f_zero : F;
  f_add : F -> F -> F;
  f_mul : F -> F -> F;
  f_of_int64 : Z -> F
}.

Arguments f_zero {F} _.
Arguments f_add {F} _ _ _.
Arguments f_mul {F} _ _ _.
Arguments f_of_int64 {F} _ _.

(** The attributes [energy] reads, with coefficients in [F]. *)
Record model (F : Type) : Type := {
  m_E0 : F;
  m_h : list F;
  m_J : list (list F);
  m_K : list (list (list F));
  m_L : list (list (list (list F)));
  m_N : nat;
  m_spins : list Z
}.

Arguments m_E0 {F} _.
Arguments m_h {F} _.
Arguments m_J {F} _.
Arguments m_K {F} _.
Arguments m_L {F} _.
Arguments m_N {F} _.
Arguments m_spins {F} _.

(** The four running totals. *)
Record sums (F : Type) : Type := {
  sum_h : F;
  sum_J : F;
  sum_K : F;
  sum_L : F
}.

Arguments Build_sums {F} _ _ _ _.
Arguments sum_h {F} _.
Arguments sum_J {F} _.
Arguments sum_K {F} _.
Arguments sum_L {F} _.

(** [self.h[i]*self.spins[i]] *)
Definition term_h_in {F : Type} (ops : arithmetic F) (m : model F) (i : nat)
  : result F :=
  c <- item (m_h m) i ;;
  si <- item (m_spins m) i ;;
  OK (f_mul ops c (f_of_int64 ops si)).

(** [(self.J[i,j])*(self.spins[i]*self.spins[j])] *)
Definition term_J_in {F : Type} (ops : arithmetic F) (m : model F)
  (i j : nat) : result F :=
  c <- item2 (m_J m) i j ;;
  si <- item (m_spins m) i ;;
  sj <- item (m_spins m) j ;;
  OK (f_mul ops c (f_of_int64 ops (mul64 si sj))).

(** [(self.K[i,j,k])*(self.spins[i]*self.spins[j]*self.spins[k])] *)
Definition term_K_in {F : Type} (ops : arithmetic F) (m : model F)
  (i j k : nat) : result F :=
  c <- item3 (m_K m) i j k ;;
  si <- item (m_spins m) i ;;
  sj <- item (m_spins m) j ;;
  sk <- item (m_spins m) k ;;
  OK (f_mul ops c (f_of_int64 ops (mul64 (mul64 si sj) sk))).

(** [(self.L[i,j,k,l])*(self.spins[i]*self.spins[j]*self.spins[k]*self.spins[l])] *)
Definition term_L_in {F : Type} (ops : arithmetic F) (m : model F)
  (i j k l : nat) : result F :=
  c <- item4 (m_L m) i j k l ;;
  si <- item (m_spins m) i ;;
  sj <- item (m_spins m) j ;;
  sk <- item (m_spins m) k ;;
  sl <- item (m_spins m) l ;;
  OK (f_mul ops c (f_of_int64 ops (mul64 (mul64 (mul64 si sj) sk) sl))).

(** [energy], operation by operation: the loops, the lookups, the order of
    the additions and of the final sum are those of the method. *)
Definition energy_in {F : Type} (ops : arithmetic F) (m : model F)
  : result F :=
  t <- for_each (range (m_N m)) (fun i t =>
         x <- term_h_in ops m i ;;
         for_each (range (m_N m)) (fun j t =>
           x <- term_J_in ops m i j ;;
           for_each (range (m_N m)) (fun k t =>
             x <- term_K_in ops m i j k ;;
             for_each (range (m_N m)) (fun l t =>
               x <- term_L_in ops m i j k l ;;
               OK (Build_sums (sum_h t) (sum_J t) (sum_K t)
                              (f_add ops (sum_L t) x)))
             (Build_sums (sum_h t) (sum_J t) (f_add ops (sum_K t) x)
                         (sum_L t)))
           (Build_sums (sum_h t) (f_add ops (sum_J t) x) (sum_K t)
                       (sum_L t)))
         (Build_sums (f_add ops (sum_h t) x) (sum_J t) (sum_K t)
                     (sum_L t)))
       (Build_sums (f_zero ops) (f_zero ops) (f_zero ops) (f_zero ops)) ;;
  OK (f_add ops
        (f_add ops
           (f_add ops (f_add ops (m_E0 m) (sum_h t)) (sum_J t))
           (sum_K t))
        (sum_L t)).

(** Exact arithmetic on the reals. *)
Definition exact_arithmetic : arithmetic R :=
  {| f_zero := 0; f_add := Rplus; f_mul := Rmult; f_of_int64 := IZR |}.


(** The float64 nearest to an int64 value. *)
Definition float64_of_int64 (z : Z) : PrimFloat.float :=
  if (z =? - 2 ^ 63)%Z
  then PrimFloat.opp
         (PrimFloat.mul (PrimFloat.of_uint63 (Uint63.of_Z 2))
                        (PrimFloat.of_uint63 (Uint63.of_Z (2 ^ 62))))
  else if (z <? 0)%Z
       then PrimFloat.opp (PrimFloat.of_uint63 (Uint63.of_Z (- z)))
       else PrimFloat.of_uint63 (Uint63.of_Z z).


(** The integer a float64 is, when it is one. *)
Definition float64_integer (x : PrimFloat.float) : option Z :=
  match FloatOps.Prim2SF x with
  | SpecFloat.S754_zero _ => Some 0%Z
  | SpecFloat.S754_finite s m e =>
      let sign := if s then (-1)%Z else 1%Z in
      if (0 <=? e)%Z then Some (sign * Z.pos m * 2 ^ e)%Z
      else if (Z.pos m mod 2 ^ (- e) =? 0)%Z
           then Some (sign * (Z.pos m / 2 ^ (- e)))%Z
           else None
  | _ => None
  end.


(** The attributes of the object, as [energy] reads them. *)
Definition as_model (self : GeneralizedIsingModel) : model R :=
  {| m_E0 := E0 self; m_h := h self; m_J := J self; m_K := K self;
     m_L := L self; m_N := N self; m_spins := spins self |}.

Definition sums_of (t : totals) : sums R :=
  Build_sums (tot_h t) (tot_J t) (tot_K t) (tot_L t).

Definition result_map {A B : Type} (f : A -> B) (r : result A) : result B :=
  match r with
  | OK a => OK (f a)
  | Raise e => Raise e
  end.

(** Extents of tensors of any coefficients. *)
Definition extent1 {A : Type} (n : nat) (a : list A) : Prop := length a = n.
Definition extent2 {A : Type} (n : nat) (a : list (list A)) : Prop :=
  length a = n /\ Forall (extent1 n) a.
Definition extent3 {A : Type} (n : nat) (a : list (list (list A))) : Prop :=
  length a = n /\ Forall (extent2 n) a.
Definition extent4 {A : Type} (n : nat) (a : list (list (list (list A))))
  : Prop :=
  length a = n /\ Forall (extent3 n) a.

(** Tensors of extent [N] on every axis and a configuration of [N] spins. *)
Definition well_formed_in {F : Type} (m : model F) : Prop :=
  extent1 (m_N m) (m_h m) /\ extent2 (m_N m) (m_J m) /\
  extent3 (m_N m) (m_K m) /\ extent4 (m_N m) (m_L m) /\
  configuration (m_N m) (m_spins m).

(** The index tuples of [r] indices below [n], in lexicographic order. *)
Fixpoint tuples (r n : nat) : list (list nat) :=
  match r with
  | O => [[]]
  | S r' => flat_map (fun i => map (cons i) (tuples r' n)) (range n)
  end.

(** The coefficient of an index tuple: an entry of [h], [J], [K] or [L]
    according to the number of indices. *)
Definition coefficient {F : Type} (ops : arithmetic F) (m : model F)
  (idx : list nat) : F :=
  match idx with
  | [i] => nth i (m_h m) (f_zero ops)
  | [i; j] => nth j (nth i (m_J m) []) (f_zero ops)
  | [i; j; k] => nth k (nth j (nth i (m_K m) []) []) (f_zero ops)
  | [i; j; k; l] =>
      nth l (nth k (nth j (nth i (m_L m) []) []) []) (f_zero ops)
  | _ => f_zero ops
  end.

(** The product of the spins at the indices of a tuple. *)
Definition spin_product (s : list Z) (idx : list nat) : Z :=
  fold_left (fun p i => (p * nth i s 0)%Z) idx 1%Z.

(** The term of an index tuple: its coefficient times the product of its
    spins. *)
Definition term {F : Type} (ops : arithmetic F) (m : model F)
  (idx : list nat) : F :=
  f_mul ops (coefficient ops m idx)
        (f_of_int64 ops (spin_product (m_spins m) idx)).

(** The terms of a list of tuples added one after the other, from [acc]
    on. *)
Definition accumulate_from {F : Type} (ops : arithmetic F) (m : model F)
  (l : list (list nat)) (acc : F) : F :=
  fold_left (fun a idx => f_add ops a (term ops m idx)) l acc.

Definition accumulate {F : Type} (ops : arithmetic F) (m : model F)
  (l : list (list nat)) : F :=
  accumulate_from ops m l (f_zero ops).

(** [E0 + tot_h + tot_J + tot_K + tot_L], each total accumulated over every
    index tuple of its rank. *)
Definition accumulated_energy {F : Type} (ops : arithmetic F) (m : model F)
  : F :=
  f_add ops
    (f_add ops
       (f_add ops
          (f_add ops (m_E0 m) (accumulate ops m (tuples 1 (m_N m))))
          (accumulate ops m (tuples 2 (m_N m))))
       (accumulate ops m (tuples 3 (m_N m))))
    (accumulate ops m (tuples 4 (m_N m))).

(** The terms of the tuples that extend the prefix [p] by [r] indices, added
    from [acc] on. *)
Definition accumulate_under {F : Type} (ops : arithmetic F) (m : model F)
  (r : nat) (p : list nat) (acc : F) : F :=
  fold_left (fun a idx => f_add ops a (term ops m (p ++ idx)))
            (tuples r (m_N m)) acc.


(** * Properties *)

(** ** Loops and lookups *)

Lemma for_each_app {A S : Type} (xs ys : list A) (body : A -> S -> result S)
  (s : S) :
  for_each (xs ++ ys) body s = s' <- for_each xs body s ;; for_each ys body s'.
Proof.
  revert s. induction xs as [|x xs IH]; intro s; simpl.
  - reflexivity.
  - destruct (body x s) as [s'|e]; simpl; [apply IH | reflexivity].
Qed.

Lemma for_each_ext {A S : Type} (xs : list A) (f g : A -> S -> result S) :
  (forall x s, In x xs -> f x s = g x s) ->
  forall s, for_each xs f s = for_each xs g s.
Proof.
  induction xs as [|x xs IH]; intros Hfg s; simpl.
  - reflexivity.
  - rewrite (Hfg x s) by (left; reflexivity).
    destruct (g x s) as [s'|e]; simpl; [|reflexivity].
    apply IH. intros y s0 Hy. apply Hfg. right. exact Hy.
Qed.

Lemma range_S (n : nat) : range (S n) = range n ++ [n].
Proof. unfold range. rewrite seq_S. reflexivity. Qed.

Lemma in_range (n i : nat) : In i (range n) <-> (i < n)%nat.
Proof. unfold range. rewrite in_seq. lia. Qed.

Lemma item_nth {A : Type} (a : list A) (i : nat) (d : A) :
  (i < length a)%nat -> item a i = OK (nth i a d).
Proof.
  intro Hi. unfold item.
  rewrite (nth_error_nth' a d Hi). reflexivity.
Qed.

Lemma item_out {A : Type} (a : list A) (i : nat) :
  (length a <= i)%nat -> item a i = Raise IndexError.
Proof.
  intro Hi. unfold item.
  apply nth_error_None in Hi. rewrite Hi. reflexivity.
Qed.

Lemma Forall_nth_in {A : Type} (P : A -> Prop) (a : list A) (i : nat) (d : A) :
  Forall P a -> (i < length a)%nat -> P (nth i a d).
Proof.
  intros Ha Hi. rewrite Forall_forall in Ha. apply Ha. apply nth_In. exact Hi.
Qed.

(** ** Sums *)

Lemma big_sum_ext (n : nat) (f g : nat -> R) :
  (forall i, (i < n)%nat -> f i = g i) -> big_sum n f = big_sum n g.
Proof.
  induction n as [|n IH]; intro Hfg; simpl.
  - reflexivity.
  - rewrite IH by (intros i Hi; apply Hfg; lia).
    rewrite Hfg by lia. reflexivity.
Qed.

Lemma big_sum_zero (n : nat) : big_sum n (fun _ => 0) = 0.
Proof. induction n as [|n IH]; simpl; [reflexivity | rewrite IH; ring]. Qed.

Lemma big_sum_plus (n : nat) (f g : nat -> R) :
  big_sum n (fun i => f i + g i) = big_sum n f + big_sum n g.
Proof. induction n as [|n IH]; simpl; [ring | rewrite IH; ring]. Qed.

Lemma totals_eq (t u : totals) :
  tot_h t = tot_h u -> tot_J t = tot_J u -> tot_K t = tot_K u ->
  tot_L t = tot_L u -> t = u.
Proof.
  destruct t, u; simpl; intros; subst; reflexivity.
Qed.

Lemma tsum_components (n : nat) (g : nat -> totals) :
  tsum n g =
  {| tot_h := big_sum n (fun i => tot_h (g i));
     tot_J := big_sum n (fun i => tot_J (g i));
     tot_K := big_sum n (fun i => tot_K (g i));
     tot_L := big_sum n (fun i => tot_L (g i)) |}.
Proof.
  induction n as [|n IH]; simpl.
  - reflexivity.
  - rewrite IH. reflexivity.
Qed.

Ltac totals_ring :=
  apply totals_eq; simpl; rewrite ?big_sum_zero, ?Rplus_0_r, ?Rplus_0_l;
  first [reflexivity | ring].

(** A loop whose body adds [g i] to the totals adds their sum. *)
Lemma for_range_totals (n : nat) (body : nat -> totals -> result totals)
  (g : nat -> totals) :
  (forall i t, (i < n)%nat -> body i t = OK (tplus t (g i))) ->
  forall t, for_each (range n) body t = OK (tplus t (tsum n g)).
Proof.
  induction n as [|n IH]; intros Hb t.
  - simpl. f_equal. apply totals_eq; simpl; ring.
  - rewrite range_S, for_each_app.
    rewrite IH by (intros i u Hi; apply Hb; lia).
    simpl. rewrite Hb by lia. simpl.
    f_equal. apply totals_eq; simpl; ring.
Qed.

(** ** Lookups in consistent tensors *)

Lemma item1_ok (n : nat) (a : list R) (i : nat) :
  shape1 n a -> (i < n)%nat -> item a i = OK (at1 a i).
Proof.
  unfold shape1, at1. intros Ha Hi. apply item_nth. lia.
Qed.

Lemma item2_ok (n : nat) (a : list (list R)) (i j : nat) :
  shape2 n a -> (i < n)%nat -> (j < n)%nat -> item2 a i j = OK (at2 a i j).
Proof.
  intros [Hlen Hrows] Hi Hj. unfold item2, at2.
  rewrite (item_nth a i []) by lia. simpl.
  apply (item1_ok n); [|exact Hj].
  apply Forall_nth_in; [exact Hrows | lia].
Qed.

Lemma item3_ok (n : nat) (a : list (list (list R))) (i j k : nat) :
  shape3 n a -> (i < n)%nat -> (j < n)%nat -> (k < n)%nat ->
  item3 a i j k = OK (at3 a i j k).
Proof.
  intros [Hlen Hrows] Hi Hj Hk. unfold item3, at3.
  rewrite (item_nth a i []) by lia. simpl.
  apply (item2_ok n); [|exact Hj|exact Hk].
  apply Forall_nth_in; [exact Hrows | lia].
Qed.

Lemma item4_ok (n : nat) (a : list (list (list (list R)))) (i j k l : nat) :
  shape4 n a -> (i < n)%nat -> (j < n)%nat -> (k < n)%nat -> (l < n)%nat ->
  item4 a i j k l = OK (at4 a i j k l).
Proof.
  intros [Hlen Hrows] Hi Hj Hk Hl. unfold item4, at4.
  rewrite (item_nth a i []) by lia. simpl.
  apply (item3_ok n); [|exact Hj|exact Hk|exact Hl].
  apply Forall_nth_in; [exact Hrows | lia].
Qed.

(** ** What [energy] computes *)

Section Evaluation.

Variable self : GeneralizedIsingModel.
Hypothesis Hcons : consistent self.
Hypothesis Hlen : length (spins self) = N self.

Let n := N self.

Lemma spin_ok (i : nat) :
  (i < n)%nat -> item (spins self) i = OK (nth i (spins self) 0%Z).
Proof. intro Hi. apply item_nth. rewrite Hlen. exact Hi. Qed.

Lemma term_h_ok (i : nat) :
  (i < n)%nat -> term_h self i = OK (val_h self i).
Proof.
  intro Hi. unfold term_h, val_h.
  destruct Hcons as (Hh & _).
  rewrite (item1_ok n) by assumption. simpl.
  rewrite spin_ok by assumption. reflexivity.
Qed.

Lemma term_J_ok (i j : nat) :
  (i < n)%nat -> (j < n)%nat -> term_J self i j = OK (val_J self i j).
Proof.
  intros Hi Hj. unfold term_J, val_J.
  destruct Hcons as (_ & HJ & _).
  rewrite (item2_ok n) by assumption. simpl.
  rewrite !spin_ok by assumption. reflexivity.
Qed.

Lemma term_K_ok (i j k : nat) :
  (i < n)%nat -> (j < n)%nat -> (k < n)%nat ->
  term_K self i j k = OK (val_K self i j k).
Proof.
  intros Hi Hj Hk. unfold term_K, val_K.
  destruct Hcons as (_ & _ & HK & _).
  rewrite (item3_ok n) by assumption. simpl.
  rewrite !spin_ok by assumption. reflexivity.
Qed.

Lemma term_L_ok (i j k l : nat) :
  (i < n)%nat -> (j < n)%nat -> (k < n)%nat -> (l < n)%nat ->
  term_L self i j k l = OK (val_L self i j k l).
Proof.
  intros Hi Hj Hk Hl. unfold term_L, val_L.
  destruct Hcons as (_ & _ & _ & HL & _).
  rewrite (item4_ok n) by assumption. simpl.
  rewrite !spin_ok by assumption. reflexivity.
Qed.

Lemma loop_l (i j k : nat) (t : totals) :
  (i < n)%nat -> (j < n)%nat -> (k < n)%nat ->
  for_each (range n) (fun l t =>
      x <- term_L self i j k l ;; OK (add_L t x)) t
  = OK (tplus t (tsum n (pass_l self i j k))).
Proof.
  intros Hi Hj Hk. apply for_range_totals. intros l u Hl.
  rewrite term_L_ok by assumption. simpl.
  f_equal. apply totals_eq; simpl; ring.
Qed.

Lemma loop_k (i j : nat) (t : totals) :
  (i < n)%nat -> (j < n)%nat ->
  for_each (range n) (fun k t =>
      x <- term_K self i j k ;;
      for_each (range n) (fun l t =>
          x <- term_L self i j k l ;; OK (add_L t x))
        (add_K t x)) t
  = OK (tplus t (tsum n (pass_k self i j))).
Proof.
  intros Hi Hj. apply for_range_totals. intros k u Hk.
  rewrite term_K_ok by assumption. simpl.
  rewrite loop_l by assumption.
  rewrite tsum_components.
  f_equal. totals_ring.
Qed.

Lemma loop_j (i : nat) (t : totals) :
  (i < n)%nat ->
  for_each (range n) (fun j t =>
      x <- term_J self i j ;;
      for_each (range n) (fun k t =>
          x <- term_K self i j k ;;
          for_each (range n) (fun l t =>
              x <- term_L self i j k l ;; OK (add_L t x))
            (add_K t x))
        (add_J t x)) t
  = OK (tplus t (tsum n (pass_j self i))).
Proof.
  intros Hi. apply for_range_totals. intros j u Hj.
  rewrite term_J_ok by assumption. simpl.
  rewrite loop_k by assumption.
  rewrite tsum_components.
  f_equal. totals_ring.
Qed.

Lemma loop_i (t : totals) :
  for_each (range n) (fun i t =>
      x <- term_h self i ;;
      for_each (range n) (fun j t =>
          x <- term_J self i j ;;
          for_each (range n) (fun k t =>
              x <- term_K self i j k ;;
              for_each (range n) (fun l t =>
                  x <- term_L self i j k l ;; OK (add_L t x))
                (add_K t x))
            (add_J t x))
        (add_h t x)) t
  = OK (tplus t (tsum n (pass_i self))).
Proof.
  apply for_range_totals. intros i u Hi.
  rewrite term_h_ok by assumption. simpl.
  rewrite loop_j by assumption.
  rewrite tsum_components.
  f_equal. totals_ring.
Qed.

Lemma energy_eval : energy self = OK (energy_value self).
Proof.
  unfold energy. fold n. rewrite loop_i. simpl.
  rewrite tsum_components. simpl.
  unfold energy_value. rewrite !Rplus_0_l. reflexivity.
Qed.

End Evaluation.

(** ** Spin arithmetic *)

Lemma is_spin_int64 (z : Z) : is_spin z -> int64 z.
Proof. intros [-> | ->]; unfold int64; lia. Qed.

Lemma is_spin_opp (z : Z) : is_spin z -> is_spin (- z).
Proof. intros [-> | ->]; [right | left]; reflexivity. Qed.

Lemma mul64_spin (a b : Z) :
  is_spin a -> is_spin b -> mul64 a b = (a * b)%Z /\ is_spin (a * b).
Proof.
  intros [-> | ->] [-> | ->]; split; try reflexivity;
    unfold is_spin; simpl; auto.
Qed.

Lemma configuration_nth (n : nat) (s : list Z) (i : nat) :
  configuration n s -> (i < n)%nat -> is_spin (nth i s 0%Z).
Proof.
  intros [Hlen Hs] Hi. apply Forall_nth_in; [exact Hs | lia].
Qed.

Section SpinProducts.

Variable self : GeneralizedIsingModel.
Hypothesis Hconf : configuration (N self) (spins self).

Let s := spin_at (spins self).

Lemma val_h_spin (i : nat) : val_h self i = at1 (h self) i * s i.
Proof. reflexivity. Qed.

Lemma val_J_spin (i j : nat) :
  (i < N self)%nat -> (j < N self)%nat ->
  val_J self i j = at2 (J self) i j * s i * s j.
Proof.
  intros Hi Hj. unfold val_J, s, spin_at.
  pose proof (configuration_nth _ _ i Hconf Hi) as Si.
  pose proof (configuration_nth _ _ j Hconf Hj) as Sj.
  destruct (mul64_spin _ _ Si Sj) as [-> _].
  rewrite mult_IZR. ring.
Qed.

Lemma val_K_spin (i j k : nat) :
  (i < N self)%nat -> (j < N self)%nat -> (k < N self)%nat ->
  val_K self i j k = at3 (K self) i j k * s i * s j * s k.
Proof.
  intros Hi Hj Hk. unfold val_K, s, spin_at.
  pose proof (configuration_nth _ _ i Hconf Hi) as Si.
  pose proof (configuration_nth _ _ j Hconf Hj) as Sj.
  pose proof (configuration_nth _ _ k Hconf Hk) as Sk.
  destruct (mul64_spin _ _ Si Sj) as [-> Sij].
  destruct (mul64_spin _ _ Sij Sk) as [-> _].
  rewrite !mult_IZR. ring.
Qed.

Lemma val_L_spin (i j k l : nat) :
  (i < N self)%nat -> (j < N self)%nat -> (k < N self)%nat ->
  (l < N self)%nat ->
  val_L self i j k l = at4 (L self) i j k l * s i * s j * s k * s l.
Proof.
  intros Hi Hj Hk Hl. unfold val_L, s, spin_at.
  pose proof (configuration_nth _ _ i Hconf Hi) as Si.
  pose proof (configuration_nth _ _ j Hconf Hj) as Sj.
  pose proof (configuration_nth _ _ k Hconf Hk) as Sk.
  pose proof (configuration_nth _ _ l Hconf Hl) as Sl.
  destruct (mul64_spin _ _ Si Sj) as [-> Sij].
  destruct (mul64_spin _ _ Sij Sk) as [-> Sijk].
  destruct (mul64_spin _ _ Sijk Sl) as [-> _].
  rewrite !mult_IZR. ring.
Qed.

Lemma energy_value_hamiltonian :
  energy_value self = hamiltonian self s.
Proof.
  unfold energy_value, hamiltonian.
  repeat apply (f_equal2 Rplus); try reflexivity.
  - apply big_sum_ext; intros i Hi.
    apply big_sum_ext; intros j Hj.
    apply val_J_spin; assumption.
  - apply big_sum_ext; intros i Hi.
    apply big_sum_ext; intros j Hj.
    apply big_sum_ext; intros k Hk.
    apply val_K_spin; assumption.
  - apply big_sum_ext; intros i Hi.
    apply big_sum_ext; intros j Hj.
    apply big_sum_ext; intros k Hk.
    apply big_sum_ext; intros l Hl.
    apply val_L_spin; assumption.
Qed.

End SpinProducts.

Lemma demo_consistent : consistent demo.
Proof.
  unfold consistent, shape4, shape3, shape2, shape1; simpl.
  repeat (split || constructor).
Qed.

Lemma demo_well_formed : well_formed demo.
Proof.
  split; [exact demo_consistent|].
  split; [reflexivity|].
  repeat apply Forall_cons; try apply Forall_nil; unfold is_spin; auto.
Qed.

(** With exact additions the totals are the sums of the Hamiltonian. *)
Lemma energy_well_formed (self : GeneralizedIsingModel) :
  well_formed self ->
  energy self = OK (hamiltonian self (spin_at (spins self))).
Proof.
  intros [Hcons Hconf].
  rewrite (energy_eval self Hcons (proj1 Hconf)).
  f_equal. apply energy_value_hamiltonian. exact Hconf.
Qed.

(** ** [energy] in any arithmetic: loops that keep their state apart *)

Lemma for_each_pure {A S : Type} (xs : list A) (body : A -> S -> result S)
  (step : A -> S -> S) :
  (forall x s, In x xs -> body x s = OK (step x s)) ->
  forall s, for_each xs body s = OK (fold_left (fun s x => step x s) xs s).
Proof.
  induction xs as [|x xs IH]; intros Hbody s; simpl.
  - reflexivity.
  - rewrite (Hbody x s) by (left; reflexivity). simpl.
    apply IH. intros y s0 Hy. apply Hbody. right. exact Hy.
Qed.

Lemma fold_left_ext_in {A B : Type} (f g : B -> A -> B) (xs : list A) :
  (forall b x, In x xs -> f b x = g b x) ->
  forall b, fold_left f xs b = fold_left g xs b.
Proof.
  induction xs as [|x xs IH]; intros Hfg b; simpl.
  - reflexivity.
  - rewrite (Hfg b x) by (left; reflexivity).
    apply IH. intros b0 y Hy. apply Hfg. right. exact Hy.
Qed.

Lemma fold_left_map {A B C : Type} (f : C -> B -> C) (g : A -> B)
  (xs : list A) (c : C) :
  fold_left f (map g xs) c = fold_left (fun c x => f c (g x)) xs c.
Proof.
  revert c. induction xs as [|x xs IH]; intro c; simpl;
    [reflexivity | apply IH].
Qed.

Lemma fold_left_flat_map {A B C : Type} (f : C -> B -> C) (g : A -> list B)
  (xs : list A) (c : C) :
  fold_left f (flat_map g xs) c
  = fold_left (fun c x => fold_left f (g x) c) xs c.
Proof.
  revert c. induction xs as [|x xs IH]; intro c; simpl.
  - reflexivity.
  - rewrite fold_left_app. apply IH.
Qed.

Lemma fold_left_same {A B : Type} (xs : list A) (b : B) :
  fold_left (fun b _ => b) xs b = b.
Proof. induction xs as [|x xs IH]; simpl; [reflexivity | exact IH]. Qed.

(** A loop that updates each total from its own previous value updates the
    four totals independently. *)
Lemma fold_left_sums {A F : Type} (xs : list A) (fh fJ fK fL : A -> F -> F)
  (t : sums F) :
  fold_left (fun t x => Build_sums (fh x (sum_h t)) (fJ x (sum_J t))
                                   (fK x (sum_K t)) (fL x (sum_L t))) xs t
  = Build_sums (fold_left (fun a x => fh x a) xs (sum_h t))
               (fold_left (fun a x => fJ x a) xs (sum_J t))
               (fold_left (fun a x => fK x a) xs (sum_K t))
               (fold_left (fun a x => fL x a) xs (sum_L t)).
Proof.
  revert t. induction xs as [|x xs IH]; intro t; simpl.
  - destruct t; reflexivity.
  - rewrite IH. reflexivity.
Qed.

(** ** The index tuples *)







(** ** The totals of [energy], operation by operation *)

Section Accumulation.

Variable F : Type.
Variable ops : arithmetic F.
Variable m : model F.
Hypothesis Hwf : well_formed_in m.

Lemma spin_in (i : nat) :
  (i < m_N m)%nat ->
  item (m_spins m) i = OK (nth i (m_spins m) 0%Z) /\
  is_spin (nth i (m_spins m) 0%Z).
Proof.
  intro Hi. destruct Hwf as (_ & _ & _ & _ & Hconf). split.
  - apply item_nth. destruct Hconf as [Hlen _]. lia.
  - exact (configuration_nth _ _ _ Hconf Hi).
Qed.

Lemma item2_in (a : list (list F)) (i j : nat) :
  extent2 (m_N m) a -> (i < m_N m)%nat -> (j < m_N m)%nat ->
  item2 a i j = OK (nth j (nth i a []) (f_zero ops)) /\
  extent1 (m_N m) (nth i a []).
Proof.
  intros [Hlen Hrows] Hi Hj.
  assert (Hrow : extent1 (m_N m) (nth i a []))
    by (apply Forall_nth_in; [exact Hrows | lia]).
  split; [|exact Hrow].
  unfold item2. rewrite (item_nth a i []) by lia. simpl.
  apply item_nth. unfold extent1 in Hrow. lia.
Qed.

Lemma item3_in (a : list (list (list F))) (i j k : nat) :
  extent3 (m_N m) a -> (i < m_N m)%nat -> (j < m_N m)%nat ->
  (k < m_N m)%nat ->
  item3 a i j k = OK (nth k (nth j (nth i a []) []) (f_zero ops)).
Proof.
  intros [Hlen Hrows] Hi Hj Hk.
  assert (Hrow : extent2 (m_N m) (nth i a []))
    by (apply Forall_nth_in; [exact Hrows | lia]).
  unfold item3. rewrite (item_nth a i []) by lia. simpl.
  apply item2_in; assumption.
Qed.

Lemma item4_in (a : list (list (list (list F)))) (i j k l : nat) :
  extent4 (m_N m) a -> (i < m_N m)%nat -> (j < m_N m)%nat ->
  (k < m_N m)%nat -> (l < m_N m)%nat ->
  item4 a i j k l
  = OK (nth l (nth k (nth j (nth i a []) []) []) (f_zero ops)).
Proof.
  intros [Hlen Hrows] Hi Hj Hk Hl.
  assert (Hrow : extent3 (m_N m) (nth i a []))
    by (apply Forall_nth_in; [exact Hrows | lia]).
  unfold item4. rewrite (item_nth a i []) by lia. simpl.
  apply item3_in; assumption.
Qed.

Lemma term_h_in_ok (i : nat) :
  (i < m_N m)%nat -> term_h_in ops m i = OK (term ops m [i]).
Proof.
  intro Hi. destruct (spin_in i Hi) as [Hsi Hi'].
  unfold term_h_in. destruct Hwf as (Hh & _).
  rewrite (item_nth (m_h m) i (f_zero ops)) by (unfold extent1 in Hh; lia).
  simpl. rewrite Hsi. simpl.
  unfold term, coefficient, spin_product. simpl.
  destruct (nth i (m_spins m) 0%Z); reflexivity.
Qed.

Lemma term_J_in_ok (i j : nat) :
  (i < m_N m)%nat -> (j < m_N m)%nat ->
  term_J_in ops m i j = OK (term ops m [i; j]).
Proof.
  intros Hi Hj.
  destruct (spin_in i Hi) as [Hsi Hi'], (spin_in j Hj) as [Hsj Hj'].
  unfold term_J_in. destruct Hwf as (_ & HJ & _).
  rewrite (proj1 (item2_in _ i j HJ Hi Hj)). simpl.
  rewrite Hsi, Hsj. simpl.
  unfold term, coefficient, spin_product. simpl.
  destruct Hi' as [-> | ->], Hj' as [-> | ->]; reflexivity.
Qed.

Lemma term_K_in_ok (i j k : nat) :
  (i < m_N m)%nat -> (j < m_N m)%nat -> (k < m_N m)%nat ->
  term_K_in ops m i j k = OK (term ops m [i; j; k]).
Proof.
  intros Hi Hj Hk.
  destruct (spin_in i Hi) as [Hsi Hi'], (spin_in j Hj) as [Hsj Hj'],
           (spin_in k Hk) as [Hsk Hk'].
  unfold term_K_in. destruct Hwf as (_ & _ & HK & _).
  rewrite (item3_in _ i j k HK Hi Hj Hk). simpl.
  rewrite Hsi, Hsj, Hsk. simpl.
  unfold term, coefficient, spin_product. simpl.
  destruct Hi' as [-> | ->], Hj' as [-> | ->], Hk' as [-> | ->];
    reflexivity.
Qed.

Lemma term_L_in_ok (i j k l : nat) :
  (i < m_N m)%nat -> (j < m_N m)%nat -> (k < m_N m)%nat ->
  (l < m_N m)%nat ->
  term_L_in ops m i j k l = OK (term ops m [i; j; k; l]).
Proof.
  intros Hi Hj Hk Hl.
  destruct (spin_in i Hi) as [Hsi Hi'], (spin_in j Hj) as [Hsj Hj'],
           (spin_in k Hk) as [Hsk Hk'], (spin_in l Hl) as [Hsl Hl'].
  unfold term_L_in. destruct Hwf as (_ & _ & _ & HL & _).
  rewrite (item4_in _ i j k l HL Hi Hj Hk Hl). simpl.
  rewrite Hsi, Hsj, Hsk, Hsl. simpl.
  unfold term, coefficient, spin_product. simpl.
  destruct Hi' as [-> | ->], Hj' as [-> | ->], Hk' as [-> | ->],
           Hl' as [-> | ->]; reflexivity.
Qed.

Lemma accumulate_under_0 (p : list nat) (a : F) :
  accumulate_under ops m 0 p a = f_add ops a (term ops m p).
Proof. unfold accumulate_under. simpl. rewrite app_nil_r. reflexivity. Qed.

Lemma accumulate_under_S (r : nat) (p : list nat) (a : F) :
  accumulate_under ops m (S r) p a
  = fold_left (fun a i => accumulate_under ops m r (p ++ [i]) a)
              (range (m_N m)) a.
Proof.
  unfold accumulate_under. simpl tuples. rewrite fold_left_flat_map.
  apply fold_left_ext_in. intros b i _. rewrite fold_left_map.
  apply fold_left_ext_in. intros c idx _. rewrite <- app_assoc. reflexivity.
Qed.

Lemma accumulate_under_1 (p : list nat) (a : F) :
  accumulate_under ops m 1 p a
  = fold_left (fun a i => f_add ops a (term ops m (p ++ [i])))
              (range (m_N m)) a.
Proof.
  rewrite accumulate_under_S. apply fold_left_ext_in.
  intros b i _. apply accumulate_under_0.
Qed.

Lemma accumulate_under_nil (r : nat) (a : F) :
  accumulate_under ops m r [] a = accumulate_from ops m (tuples r (m_N m)) a.
Proof. reflexivity. Qed.

Lemma loop_l_in (i j k : nat) (t : sums F) :
  (i < m_N m)%nat -> (j < m_N m)%nat -> (k < m_N m)%nat ->
  for_each (range (m_N m)) (fun l t =>
      x <- term_L_in ops m i j k l ;;
      OK (Build_sums (sum_h t) (sum_J t) (sum_K t) (f_add ops (sum_L t) x)))
    t
  = OK (Build_sums (sum_h t) (sum_J t) (sum_K t)
          (accumulate_under ops m 1 [i; j; k] (sum_L t))).
Proof.
  intros Hi Hj Hk.
  rewrite (for_each_pure _ _ (fun l t =>
             Build_sums (sum_h t) (sum_J t) (sum_K t)
               (f_add ops (sum_L t) (term ops m [i; j; k; l])))).
  2: { intros l s Hl. apply in_range in Hl.
       rewrite term_L_in_ok by assumption. reflexivity. }
  f_equal.
  refine (eq_trans
            (fold_left_sums (range (m_N m)) (fun _ a => a) (fun _ a => a)
               (fun _ a => a)
               (fun l a => f_add ops a (term ops m [i; j; k; l])) t) _).
  rewrite !fold_left_same, accumulate_under_1. reflexivity.
Qed.

Lemma loop_k_in (i j : nat) (t : sums F) :
  (i < m_N m)%nat -> (j < m_N m)%nat ->
  for_each (range (m_N m)) (fun k t =>
      x <- term_K_in ops m i j k ;;
      for_each (range (m_N m)) (fun l t =>
          x <- term_L_in ops m i j k l ;;
          OK (Build_sums (sum_h t) (sum_J t) (sum_K t)
                         (f_add ops (sum_L t) x)))
        (Build_sums (sum_h t) (sum_J t) (f_add ops (sum_K t) x) (sum_L t)))
    t
  = OK (Build_sums (sum_h t) (sum_J t)
          (accumulate_under ops m 1 [i; j] (sum_K t))
          (accumulate_under ops m 2 [i; j] (sum_L t))).
Proof.
  intros Hi Hj.
  rewrite (for_each_pure _ _ (fun k t =>
             Build_sums (sum_h t) (sum_J t)
               (f_add ops (sum_K t) (term ops m [i; j; k]))
               (accumulate_under ops m 1 [i; j; k] (sum_L t)))).
  2: { intros k s Hk. apply in_range in Hk.
       rewrite term_K_in_ok by assumption. simpl.
       rewrite loop_l_in by assumption. reflexivity. }
  f_equal.
  refine (eq_trans
            (fold_left_sums (range (m_N m)) (fun _ a => a) (fun _ a => a)
               (fun k a => f_add ops a (term ops m [i; j; k]))
               (fun k a => accumulate_under ops m 1 [i; j; k] a) t) _).
  rewrite !fold_left_same, accumulate_under_1, (accumulate_under_S 1).
  reflexivity.
Qed.

Lemma loop_j_in (i : nat) (t : sums F) :
  (i < m_N m)%nat ->
  for_each (range (m_N m)) (fun j t =>
      x <- term_J_in ops m i j ;;
      for_each (range (m_N m)) (fun k t =>
          x <- term_K_in ops m i j k ;;
          for_each (range (m_N m)) (fun l t =>
              x <- term_L_in ops m i j k l ;;
              OK (Build_sums (sum_h t) (sum_J t) (sum_K t)
                             (f_add ops (sum_L t) x)))
            (Build_sums (sum_h t) (sum_J t) (f_add ops (sum_K t) x)
                        (sum_L t)))
        (Build_sums (sum_h t) (f_add ops (sum_J t) x) (sum_K t) (sum_L t)))
    t
  = OK (Build_sums (sum_h t)
          (accumulate_under ops m 1 [i] (sum_J t))
          (accumulate_under ops m 2 [i] (sum_K t))
          (accumulate_under ops m 3 [i] (sum_L t))).
Proof.
  intro Hi.
  rewrite (for_each_pure _ _ (fun j t =>
             Build_sums (sum_h t)
               (f_add ops (sum_J t) (term ops m [i; j]))
               (accumulate_under ops m 1 [i; j] (sum_K t))
               (accumulate_under ops m 2 [i; j] (sum_L t)))).
  2: { intros j s Hj. apply in_range in Hj.
       rewrite term_J_in_ok by assumption. simpl.
       rewrite loop_k_in by assumption. reflexivity. }
  f_equal.
  refine (eq_trans
            (fold_left_sums (range (m_N m)) (fun _ a => a)
               (fun j a => f_add ops a (term ops m [i; j]))
               (fun j a => accumulate_under ops m 1 [i; j] a)
               (fun j a => accumulate_under ops m 2 [i; j] a) t) _).
  rewrite fold_left_same, accumulate_under_1, (accumulate_under_S 1),
    (accumulate_under_S 2).
  reflexivity.
Qed.

Lemma loop_i_in (t : sums F) :
  for_each (range (m_N m)) (fun i t =>
      x <- term_h_in ops m i ;;
      for_each (range (m_N m)) (fun j t =>
          x <- term_J_in ops m i j ;;
          for_each (range (m_N m)) (fun k t =>
              x <- term_K_in ops m i j k ;;
              for_each (range (m_N m)) (fun l t =>
                  x <- term_L_in ops m i j k l ;;
                  OK (Build_sums (sum_h t) (sum_J t) (sum_K t)
                                 (f_add ops (sum_L t) x)))
                (Build_sums (sum_h t) (sum_J t) (f_add ops (sum_K t) x)
                            (sum_L t)))
            (Build_sums (sum_h t) (f_add ops (sum_J t) x) (sum_K t)
                        (sum_L t)))
        (Build_sums (f_add ops (sum_h t) x) (sum_J t) (sum_K t) (sum_L t)))
    t
  = OK (Build_sums
          (accumulate_from ops m (tuples 1 (m_N m)) (sum_h t))
          (accumulate_from ops m (tuples 2 (m_N m)) (sum_J t))
          (accumulate_from ops m (tuples 3 (m_N m)) (sum_K t))
          (accumulate_from ops m (tuples 4 (m_N m)) (sum_L t))).
Proof.
  rewrite (for_each_pure _ _ (fun i t =>
             Build_sums
               (f_add ops (sum_h t) (term ops m [i]))
               (accumulate_under ops m 1 [i] (sum_J t))
               (accumulate_under ops m 2 [i] (sum_K t))
               (accumulate_under ops m 3 [i] (sum_L t)))).
  2: { intros i s Hi. apply in_range in Hi.
       rewrite term_h_in_ok by assumption. simpl.
       rewrite loop_j_in by assumption. reflexivity. }
  f_equal.
  refine (eq_trans
            (fold_left_sums (range (m_N m))
               (fun i a => f_add ops a (term ops m [i]))
               (fun i a => accumulate_under ops m 1 [i] a)
               (fun i a => accumulate_under ops m 2 [i] a)
               (fun i a => accumulate_under ops m 3 [i] a) t) _).
  rewrite <- !accumulate_under_nil.
  rewrite accumulate_under_1, (accumulate_under_S 1),
    (accumulate_under_S 2), (accumulate_under_S 3).
  reflexivity.
Qed.

Lemma energy_in_eval : energy_in ops m = OK (accumulated_energy ops m).
Proof.
  unfold energy_in. rewrite loop_i_in. reflexivity.
Qed.

End Accumulation.

(** ** The real-valued [energy] is [energy_in] at exact arithmetic *)

Lemma for_each_result_map {A S S' : Type} (f : S -> S') (xs : list A)
  (body : A -> S -> result S) (body' : A -> S' -> result S') :
  (forall x s, In x xs -> result_map f (body x s) = body' x (f s)) ->
  forall s, result_map f (for_each xs body s) = for_each xs body' (f s).
Proof.
  induction xs as [|x xs IH]; intros Hb s; simpl.
  - reflexivity.
  - rewrite <- (Hb x s) by (left; reflexivity).
    destruct (body x s) as [s'|e]; simpl; [|reflexivity].
    apply IH. intros y s0 Hy. apply Hb. right. exact Hy.
Qed.

Lemma energy_exact (self : GeneralizedIsingModel) :
  energy self = energy_in exact_arithmetic (as_model self).
Proof.
  unfold energy, energy_in.
  change (Build_sums (f_zero exact_arithmetic) (f_zero exact_arithmetic)
            (f_zero exact_arithmetic) (f_zero exact_arithmetic))
    with (sums_of {| tot_h := 0; tot_J := 0; tot_K := 0; tot_L := 0 |}).
  cbn [m_N as_model].
  rewrite <- (for_each_result_map sums_of (range (N self))
                (fun i t =>
                   x <- term_h self i ;;
                   for_each (range (N self)) (fun j t =>
                     x <- term_J self i j ;;
                     for_each (range (N self)) (fun k t =>
                       x <- term_K self i j k ;;
                       for_each (range (N self)) (fun l t =>
                         x <- term_L self i j k l ;;
                         OK (add_L t x))
                       (add_K t x))
                     (add_J t x))
                   (add_h t x))).
  - destruct (for_each _ _ _) as [t|e]; reflexivity.
  - intros i t _.
    change (term_h_in exact_arithmetic (as_model self) i)
      with (term_h self i).
    destruct (term_h self i) as [x|e]; [|reflexivity].
    cbn [bindR].
    apply (for_each_result_map sums_of). intros j t1 _.
    change (term_J_in exact_arithmetic (as_model self) i j)
      with (term_J self i j).
    destruct (term_J self i j) as [y|e]; [|reflexivity].
    cbn [bindR].
    apply (for_each_result_map sums_of). intros k t2 _.
    change (term_K_in exact_arithmetic (as_model self) i j k)
      with (term_K self i j k).
    destruct (term_K self i j k) as [z|e]; [|reflexivity].
    cbn [bindR].
    apply (for_each_result_map sums_of). intros l t3 _.
    change (term_L_in exact_arithmetic (as_model self) i j k l)
      with (term_L self i j k l).
    destruct (term_L self i j k l) as [w|e]; reflexivity.
Qed.

(** With exact arithmetic the accumulated totals are the sums of the
    Hamiltonian. *)
Lemma accumulated_energy_exact (self : GeneralizedIsingModel) :
  well_formed self ->
  accumulated_energy exact_arithmetic (as_model self)
  = hamiltonian self (spin_at (spins self)).
Proof.
  intro Hwf.
  assert (Hin : well_formed_in (as_model self)).
  { destruct Hwf as [(H1 & H2 & H3 & H4 & _) Hc].
    repeat split; try assumption; first [apply H2 | apply H3 | apply H4
                                         | apply Hc]. }
  pose proof (energy_in_eval R exact_arithmetic (as_model self) Hin) as He.
  rewrite <- energy_exact, (energy_well_formed self Hwf) in He.
  injection He as He. symmetry. exact He.
Qed.

(** The conversion of int64 is exact at both ends of the range of the spins'
    products and at the ends of the int64 range that float64 holds. *)
Example float64_of_int64_values :
  float64_integer (float64_of_int64 (-1)) = Some (-1)%Z /\
  float64_integer (float64_of_int64 1) = Some 1%Z /\
  float64_integer (float64_of_int64 (- 2 ^ 63)) = Some (- 2 ^ 63)%Z /\
  float64_integer (float64_of_int64 (2 ^ 62)) = Some (2 ^ 62)%Z.
Proof. repeat split; vm_compute; reflexivity. Qed.





Example energy_demo : energy demo = OK 0.
Proof.
  rewrite (energy_well_formed demo demo_well_formed).
  unfold hamiltonian, spin_at, at4, at3, at2, at1; simpl.
  f_equal. lra.
Qed.

(** ** Global flip symmetry *)

(** [energy] depends on the object only through [N], [E0] and the terms. *)
Lemma energy_ext (self self' : GeneralizedIsingModel) :
  N self = N self' -> E0 self = E0 self' ->
  (forall i, term_h self i = term_h self' i) ->
  (forall i j, term_J self i j = term_J self' i j) ->
  (forall i j k, term_K self i j k = term_K self' i j k) ->
  (forall i j k l, term_L self i j k l = term_L self' i j k l) ->
  energy self = energy self'.
Proof.
  intros HN HE Hh HJ HK HL. unfold energy. rewrite HN, HE.
  f_equal.
  apply for_each_ext; intros i t _. rewrite Hh.
  destruct (term_h self' i) as [x|e]; simpl; [|reflexivity].
  apply for_each_ext; intros j t1 _. rewrite HJ.
  destruct (term_J self' i j) as [y|e]; simpl; [|reflexivity].
  apply for_each_ext; intros k t2 _. rewrite HK.
  destruct (term_K self' i j k) as [z|e]; simpl; [|reflexivity].
  apply for_each_ext; intros l t3 _. rewrite HL.
  reflexivity.
Qed.

Lemma wrap64_mod (x : Z) : (wrap64 x mod 2 ^ 64 = x mod 2 ^ 64)%Z.
Proof.
  unfold wrap64.
  rewrite Zminus_mod_idemp_l.
  f_equal. lia.
Qed.

Lemma wrap64_eq_mod (x y : Z) :
  (x mod 2 ^ 64 = y mod 2 ^ 64)%Z -> wrap64 x = wrap64 y.
Proof.
  intro H. unfold wrap64. f_equal.
  rewrite <- (Zplus_mod_idemp_l x), <- (Zplus_mod_idemp_l y), H.
  reflexivity.
Qed.

Lemma mul64_wrap_l (x y : Z) : mul64 (wrap64 x) y = mul64 x y.
Proof.
  unfold mul64. apply wrap64_eq_mod.
  rewrite <- Zmult_mod_idemp_l, wrap64_mod, Zmult_mod_idemp_l.
  reflexivity.
Qed.

Lemma mul64_opp_opp (a b : Z) : mul64 (- a) (- b) = mul64 a b.
Proof. unfold mul64. rewrite Z.mul_opp_opp. reflexivity. Qed.

Lemma mul64_4_opp (a b c d : Z) :
  mul64 (mul64 (mul64 (- a) (- b)) (- c)) (- d)
  = mul64 (mul64 (mul64 a b) c) d.
Proof.
  rewrite mul64_opp_opp.
  unfold mul64 at 2 5. rewrite !mul64_wrap_l.
  unfold mul64. f_equal. ring.
Qed.

Lemma item_negate (s : list Z) (i : nat) :
  item (negate s) i
  = match item s i with OK a => OK (- a)%Z | Raise e => Raise e end.
Proof.
  unfold item, negate. rewrite nth_error_map.
  destruct (nth_error s i); reflexivity.
Qed.

Lemma item_all_zero (a : list R) (i : nat) (c : R) :
  all_zero a -> item a i = OK c -> c = 0.
Proof.
  unfold item. intros Ha Hc.
  destruct (nth_error a i) as [x|] eqn:E; [|discriminate].
  injection Hc as <-.
  unfold all_zero in Ha. rewrite Forall_forall in Ha.
  apply Ha. eapply nth_error_In. exact E.
Qed.

Lemma item3_all_zero (a : list (list (list R))) (i j k : nat) (c : R) :
  Forall (Forall all_zero) a -> item3 a i j k = OK c -> c = 0.
Proof.
  unfold item3, item2. intros Ha Hc.
  destruct (item a i) as [r|] eqn:Ei; simpl in Hc; [|discriminate].
  destruct (item r j) as [r'|] eqn:Ej; simpl in Hc; [|discriminate].
  apply (item_all_zero r' k); [|exact Hc].
  unfold item in Ei, Ej.
  destruct (nth_error a i) as [x|] eqn:E1; [|discriminate].
  injection Ei as ->.
  destruct (nth_error r j) as [x|] eqn:E2; [|discriminate].
  injection Ej as ->.
  rewrite Forall_forall in Ha.
  specialize (Ha r (nth_error_In _ _ E1)).
  rewrite Forall_forall in Ha.
  exact (Ha r' (nth_error_In _ _ E2)).
Qed.

Lemma even_demo_zero :
  all_zero (h even_demo) /\ Forall (Forall all_zero) (K even_demo).
Proof.
  unfold all_zero; simpl. split; repeat constructor.
Qed.

(** C7. When [h] and [K] are identically zero, the energy of a configuration
    equals the energy of the globally negated configuration (as results:
    the same value, or the same exception when a lookup fails); on a
    well-formed model that result is a value. *)
Theorem energy_global_flip (self : GeneralizedIsingModel) :
  all_zero (h self) -> Forall (Forall all_zero) (K self) ->
  energy (with_spins self (negate (spins self))) = energy self /\
  (well_formed self -> exists e, energy self = OK e).
Proof.
  intros Hh HK. split.
  2:{ intros [Hcons [Hlen _]]. eexists. apply energy_eval; assumption. }
  apply energy_ext; try reflexivity.
  - intro i. unfold term_h; simpl.
    destruct (item (h self) i) as [c|e] eqn:Ec; simpl; [|reflexivity].
    rewrite (item_all_zero _ _ _ Hh Ec).
    rewrite item_negate.
    destruct (item (spins self) i); simpl; [|reflexivity].
    rewrite !Rmult_0_l. reflexivity.
  - intros i j. unfold term_J; simpl.
    destruct (item2 (J self) i j) as [c|e]; simpl; [|reflexivity].
    rewrite !item_negate.
    destruct (item (spins self) i); simpl; [|reflexivity].
    destruct (item (spins self) j); simpl; [|reflexivity].
    rewrite mul64_opp_opp. reflexivity.
  - intros i j k. unfold term_K; simpl.
    destruct (item3 (K self) i j k) as [c|e] eqn:Ec; simpl; [|reflexivity].
    rewrite (item3_all_zero _ _ _ _ _ HK Ec).
    rewrite !item_negate.
    destruct (item (spins self) i); simpl; [|reflexivity].
    destruct (item (spins self) j); simpl; [|reflexivity].
    destruct (item (spins self) k); simpl; [|reflexivity].
    rewrite !Rmult_0_l. reflexivity.
  - intros i j k l. unfold term_L; simpl.
    destruct (item4 (L self) i j k l) as [c|e]; simpl; [|reflexivity].
    rewrite !item_negate.
    destruct (item (spins self) i); simpl; [|reflexivity].
    destruct (item (spins self) j); simpl; [|reflexivity].
    destruct (item (spins self) k); simpl; [|reflexivity].
    destruct (item (spins self) l); simpl; [|reflexivity].
    rewrite mul64_4_opp. reflexivity.
Qed.

Lemma energy_global_flip_witness :
  (all_zero (h even_demo) /\ Forall (Forall all_zero) (K even_demo)) /\
  energy (with_spins even_demo (negate (spins even_demo))) = energy even_demo.
Proof.
  split; [exact even_demo_zero|].
  apply (energy_global_flip even_demo); apply even_demo_zero.
Defined.

(** ** Indexing and in-place update *)

Lemma np_index_spec (len : nat) (i : Z) (k : nat) :
  np_index len i = OK k ->
  (k < len)%nat /\ (i = Z.of_nat k \/ i = (Z.of_nat k - Z.of_nat len)%Z).
Proof.
  unfold np_index.
  destruct ((0 <=? i) && (i <? Z.of_nat len))%Z eqn:E1.
  - apply andb_prop in E1 as [Ha Hb].
    apply Z.leb_le in Ha. apply Z.ltb_lt in Hb.
    intro H. injection H as <-. split; [lia | left; lia].
  - destruct ((- Z.of_nat len <=? i) && (i <? 0))%Z eqn:E2; [|discriminate].
    apply andb_prop in E2 as [Ha Hb].
    apply Z.leb_le in Ha. apply Z.ltb_lt in Hb.
    intro H. injection H as <-. split; [lia | right; lia].
Qed.

Lemma np_index_in (len : nat) (i : Z) :
  (0 <= i < Z.of_nat len)%Z -> np_index len i = OK (Z.to_nat i).
Proof.
  intros [Ha Hb]. unfold np_index.
  apply Z.leb_le in Ha. apply Z.ltb_lt in Hb. rewrite Ha, Hb. reflexivity.
Qed.

Lemma np_index_neg (len : nat) (i : Z) :
  (- Z.of_nat len <= i < 0)%Z ->
  np_index len i = OK (Z.to_nat (Z.of_nat len + i)).
Proof.
  intros [Ha Hb]. unfold np_index.
  assert (E : (0 <=? i)%Z = false) by (apply Z.leb_gt; lia).
  rewrite E. simpl.
  apply Z.leb_le in Ha. apply Z.ltb_lt in Hb. rewrite Ha, Hb. reflexivity.
Qed.

Lemma np_index_out (len : nat) (i : Z) :
  (i < - Z.of_nat len \/ Z.of_nat len <= i)%Z ->
  np_index len i = Raise IndexError.
Proof.
  intro H. unfold np_index.
  destruct H as [H|H].
  - assert (E1 : (0 <=? i)%Z = false) by (apply Z.leb_gt; lia).
    assert (E2 : (- Z.of_nat len <=? i)%Z = false) by (apply Z.leb_gt; lia).
    rewrite E1, E2. reflexivity.
  - assert (E1 : (i <? Z.of_nat len)%Z = false) by (apply Z.ltb_ge; lia).
    assert (E2 : (i <? 0)%Z = false) by (apply Z.ltb_ge; lia).
    rewrite E1, E2, !andb_false_r. reflexivity.
Qed.

Lemma update_length {A : Type} (a : list A) (k : nat) (x : A) :
  length (update a k x) = length a.
Proof.
  revert k. induction a as [|y a IH]; intros [|k]; simpl; auto.
Qed.

Lemma update_nth_same {A : Type} (a : list A) (k : nat) (x d : A) :
  (k < length a)%nat -> nth k (update a k x) d = x.
Proof.
  revert k. induction a as [|y a IH]; intros [|k] Hk; simpl in *;
    try lia; auto.
  apply IH. lia.
Qed.

Lemma update_nth_other {A : Type} (a : list A) (k j : nat) (x d : A) :
  j <> k -> nth j (update a k x) d = nth j a d.
Proof.
  revert k j. induction a as [|y a IH]; intros [|k] [|j] Hjk; simpl;
    try reflexivity; try congruence.
  apply IH. congruence.
Qed.

Lemma update_update {A : Type} (a : list A) (k : nat) (x y : A) :
  update (update a k x) k y = update a k y.
Proof.
  revert k. induction a as [|z a IH]; intros [|k]; simpl; auto.
  rewrite IH. reflexivity.
Qed.

Lemma update_id {A : Type} (a : list A) (k : nat) (d : A) :
  update a k (nth k a d) = a.
Proof.
  revert k. induction a as [|z a IH]; intros [|k]; simpl; auto.
  rewrite IH. reflexivity.
Qed.

Lemma with_spins_id (self : GeneralizedIsingModel) :
  with_spins self (spins self) = self.
Proof. destruct self; reflexivity. Qed.

Lemma with_spins_twice (self : GeneralizedIsingModel) (s s' : list Z) :
  with_spins (with_spins self s) s' = with_spins self s'.
Proof. reflexivity. Qed.

(** [(-1)*x] twice gives [x] back on every int64 value. *)
Lemma neg64_involutive (x : Z) :
  int64 x -> mul64 (-1) (mul64 (-1) x) = x.
Proof.
  intro Hx. unfold int64 in Hx.
  unfold mul64 at 1. fold (mul64 (wrap64 (-1 * x)) (-1)).
  replace (-1 * mul64 (-1) x)%Z with (mul64 (-1) x * -1)%Z by ring.
  fold (mul64 (mul64 (-1) x) (-1)).
  unfold mul64 at 2. rewrite mul64_wrap_l. unfold mul64.
  replace (-1 * x * -1)%Z with x by ring.
  unfold wrap64.
  rewrite Z.mod_small by lia. lia.
Qed.

Lemma neg64_spin (x : Z) : is_spin x -> mul64 (-1) x = (- x)%Z.
Proof. intros [-> | ->]; reflexivity. Qed.

(** ** Whether [energy] raises depends on extents only *)

Lemma same_outcome_refl {A : Type} (r : result A) : same_outcome r r.
Proof. destruct r; simpl; auto. Qed.

Lemma bind_same_outcome {A A' B B' : Type} (r : result A) (r' : result A')
  (k : A -> result B) (k' : A' -> result B') :
  same_outcome r r' -> (forall a a', same_outcome (k a) (k' a')) ->
  same_outcome (bindR r k) (bindR r' k').
Proof.
  intros Hr Hk. destruct r, r'; simpl in *; try contradiction; auto.
Qed.

Lemma for_each_same_outcome {A S : Type} (xs : list A)
  (f g : A -> S -> result S) :
  (forall x s s', same_outcome (f x s) (g x s')) ->
  forall s s', same_outcome (for_each xs f s) (for_each xs g s').
Proof.
  intro Hfg. induction xs as [|x xs IH]; intros s s'; simpl.
  - exact I.
  - apply bind_same_outcome; [apply Hfg | exact IH].
Qed.

Lemma item_same_outcome {A : Type} (a a' : list A) (i : nat) :
  length a = length a' -> same_outcome (item a i) (item a' i).
Proof.
  intro Hlen. unfold item.
  destruct (nth_error a i) as [x|] eqn:E;
    destruct (nth_error a' i) as [y|] eqn:E'; simpl; auto.
  - apply nth_error_None in E'.
    assert (nth_error a i <> None) by congruence.
    apply nth_error_Some in H. lia.
  - apply nth_error_None in E.
    assert (nth_error a' i <> None) by congruence.
    apply nth_error_Some in H. lia.
Qed.

Lemma energy_same_outcome (self : GeneralizedIsingModel) (s : list Z) :
  length s = length (spins self) ->
  same_outcome (energy (with_spins self s)) (energy self).
Proof.
  intro Hlen.
  assert (Hs : forall i, same_outcome (item s i) (item (spins self) i))
    by (intro i; apply item_same_outcome; exact Hlen).
  unfold energy. cbn [N E0 with_spins].
  apply bind_same_outcome; [|intros; exact I].
  apply for_each_same_outcome. intros i t t'.
  apply bind_same_outcome.
  { unfold term_h. cbn [h spins with_spins].
    apply bind_same_outcome; [apply same_outcome_refl|]. intros ? ?.
    apply bind_same_outcome; [apply Hs|]. intros; exact I. }
  intros ? ?. apply for_each_same_outcome. intros j t1 t1'.
  apply bind_same_outcome.
  { unfold term_J. cbn [J spins with_spins].
    apply bind_same_outcome; [apply same_outcome_refl|]. intros ? ?.
    repeat (apply bind_same_outcome; [apply Hs|]; intros ? ?). exact I. }
  intros ? ?. apply for_each_same_outcome. intros k t2 t2'.
  apply bind_same_outcome.
  { unfold term_K. cbn [K spins with_spins].
    apply bind_same_outcome; [apply same_outcome_refl|]. intros ? ?.
    repeat (apply bind_same_outcome; [apply Hs|]; intros ? ?). exact I. }
  intros ? ?. apply for_each_same_outcome. intros l t3 t3'.
  apply bind_same_outcome; [|intros; exact I].
  unfold term_L. cbn [L spins with_spins].
  apply bind_same_outcome; [apply same_outcome_refl|]. intros ? ?.
  repeat (apply bind_same_outcome; [apply Hs|]; intros ? ?). exact I.
Qed.

(** ** energy_diff *)

(** A call whose index designates position [k]. *)
Lemma energy_diff_at (self : GeneralizedIsingModel) (i : Z) (k : nat) :
  Forall int64 (spins self) ->
  np_index (length (spins self)) i = OK k ->
  energy_diff i self =
  match energy self with
  | Raise e => (Raise e, self)
  | OK e1 =>
      match energy (flipped_at self k) with
      | Raise e => (Raise e, flipped_at self k)
      | OK e2 => (OK (e2 - e1), self)
      end
  end.
Proof.
  intros H64 Hk.
  destruct (np_index_spec _ _ _ Hk) as [Hlt _].
  unfold energy_diff, bindM, read, setitem_spins, getitem, setitem, ret.
  destruct (energy self) as [e1|e]; [|reflexivity].
  rewrite Hk. simpl.
  rewrite (item_nth _ _ 0%Z Hlt). simpl.
  fold (flipped_at self k).
  destruct (energy (flipped_at self k)) as [e2|e]; [|reflexivity].
  rewrite update_length, Hk. simpl.
  rewrite (item_nth _ _ 0%Z) by (rewrite update_length; exact Hlt).
  simpl. rewrite update_nth_same by exact Hlt.
  rewrite update_update.
  rewrite neg64_involutive by (apply Forall_nth_in; assumption).
  rewrite update_id. unfold flipped_at.
  rewrite with_spins_twice, with_spins_id. reflexivity.
Qed.

(** A call whose index designates no position. *)
Lemma energy_diff_bad_index (self : GeneralizedIsingModel) (i : Z) (e : exn) :
  np_index (length (spins self)) i = Raise e ->
  energy_diff i self =
  match energy self with
  | Raise e' => (Raise e', self)
  | OK _ => (Raise e, self)
  end.
Proof.
  intro Hk.
  unfold energy_diff, bindM, read, getitem.
  destruct (energy self) as [e1|e']; [|reflexivity].
  rewrite Hk. reflexivity.
Qed.

Lemma flip_site_configuration (n : nat) (s : list Z) (k : nat) :
  configuration n s -> configuration n (flip_site s k).
Proof.
  intros [Hlen Hs]. unfold flip_site. split.
  - rewrite update_length. exact Hlen.
  - apply Forall_forall. intros x Hx.
    destruct (In_nth _ _ 0%Z Hx) as (j & Hj & <-).
    rewrite update_length in Hj.
    destruct (Nat.eq_dec j k) as [->|Hne].
    + rewrite update_nth_same by exact Hj.
      apply is_spin_opp. apply Forall_nth_in; assumption.
    + rewrite update_nth_other by exact Hne.
      apply Forall_nth_in; assumption.
Qed.

Lemma flipped_at_flip_site (self : GeneralizedIsingModel) (k : nat) :
  well_formed self -> (k < N self)%nat ->
  flipped_at self k = with_spins self (flip_site (spins self) k).
Proof.
  intros [_ Hconf] Hk. unfold flipped_at, flip_site.
  rewrite neg64_spin by (eapply configuration_nth; eassumption).
  reflexivity.
Qed.

Lemma well_formed_with_spins (self : GeneralizedIsingModel) (s : list Z) :
  consistent self -> configuration (N self) s ->
  well_formed (with_spins self s).
Proof. intros Hc Hs. split; assumption. Qed.

Lemma energy_total (self : GeneralizedIsingModel) :
  well_formed self -> exists e, energy self = OK e.
Proof.
  intros [Hcons [Hlen _]]. eexists. apply energy_eval; assumption.
Qed.

Lemma configuration_int64 (n : nat) (s : list Z) :
  configuration n s -> Forall int64 s.
Proof.
  intros [_ Hs]. eapply Forall_impl; [|exact Hs].
  intros x. apply is_spin_int64.
Qed.

Lemma energy_diff_in_range (self : GeneralizedIsingModel) (i : Z) :
  well_formed self -> (0 <= i < Z.of_nat (N self))%Z ->
  exists e e',
    energy self = OK e /\
    energy (with_spins self (flip_site (spins self) (Z.to_nat i))) = OK e' /\
    energy_diff i self = (OK (e' - e), self).
Proof.
  intros Hwf Hi.
  pose proof Hwf as [Hcons Hconf].
  pose proof Hconf as [Hlen _].
  assert (Hk : (Z.to_nat i < N self)%nat) by lia.
  destruct (energy_total self Hwf) as [e He].
  assert (Hwf' : well_formed
            (with_spins self (flip_site (spins self) (Z.to_nat i)))).
  { apply well_formed_with_spins; [exact Hcons|].
    apply flip_site_configuration. exact Hconf. }
  destruct (energy_total _ Hwf') as [e' He'].
  exists e, e'. split; [exact He|]. split; [exact He'|].
  rewrite (energy_diff_at self i (Z.to_nat i)).
  - rewrite He, flipped_at_flip_site, He' by assumption. reflexivity.
  - eapply configuration_int64. exact Hconf.
  - apply np_index_in. rewrite Hlen. exact Hi.
Qed.

(** C3. For a well-formed model and a site [i] in [0,N), [energy_diff(i)]
    returns the energy of the configuration with entry [i] negated minus the
    energy of the current configuration (both evaluations succeed). *)
Theorem energy_diff_is_difference (self : GeneralizedIsingModel) (i : Z) :
  well_formed self -> (0 <= i < Z.of_nat (N self))%Z ->
  exists e e',
    energy self = OK e /\
    energy (with_spins self (flip_site (spins self) (Z.to_nat i))) = OK e' /\
    fst (energy_diff i self) = OK (e' - e).
Proof.
  intros Hwf Hi.
  destruct (energy_diff_in_range self i Hwf Hi) as (e & e' & He & He' & Hd).
  exists e, e'. rewrite Hd. auto.
Qed.

Lemma energy_diff_is_difference_witness :
  exists e e',
    energy demo = OK e /\
    energy (with_spins demo (flip_site (spins demo) (Z.to_nat 1))) = OK e' /\
    fst (energy_diff 1 demo) = OK (e' - e).
Proof.
  apply (energy_diff_is_difference demo 1).
  - exact demo_well_formed.
  - simpl. lia.
Defined.

(** The object after any call of [energy_diff], returning or raising. *)
Lemma energy_diff_frame (self : GeneralizedIsingModel) (i : Z) :
  Forall int64 (spins self) -> snd (energy_diff i self) = self.
Proof.
  intro H64.
  destruct (np_index (length (spins self)) i) as [k|e] eqn:Hk.
  - rewrite (energy_diff_at self i k H64 Hk).
    pose proof (energy_same_outcome self
                  (update (spins self) k
                     (mul64 (-1) (nth k (spins self) 0%Z)))
                  (update_length _ _ _)) as Hsame.
    fold (flipped_at self k) in Hsame.
    destruct (energy self) as [e1|e1]; [|reflexivity].
    destruct (energy (flipped_at self k)) as [e2|e2]; [reflexivity|].
    contradiction.
  - rewrite (energy_diff_bad_index self i e Hk).
    destruct (energy self); reflexivity.
Qed.

(** C4. Every call of [energy_diff] leaves the object, and so the spin
    configuration, exactly as it was: whenever the call returns, and also
    when it raises; for a well-formed model and a site in [0,N) the call
    does return. *)
Theorem energy_diff_restores_spins (self : GeneralizedIsingModel) (i : Z) :
  Forall int64 (spins self) ->
  (forall d self', energy_diff i self = (OK d, self') ->
     self' = self /\ spins self' = spins self) /\
  snd (energy_diff i self) = self /\
  (well_formed self -> (0 <= i < Z.of_nat (N self))%Z ->
     exists d, energy_diff i self = (OK d, self)).
Proof.
  intro H64.
  pose proof (energy_diff_frame self i H64) as Hframe.
  split; [|split; [exact Hframe|]].
  - intros d self' Hrun. rewrite Hrun in Hframe. simpl in Hframe.
    subst self'. split; reflexivity.
  - intros Hwf Hi.
    destruct (energy_diff_in_range self i Hwf Hi) as (e & e' & _ & _ & Hd).
    exists (e' - e). exact Hd.
Qed.

Lemma energy_diff_restores_spins_witness :
  Forall int64 (spins demo) /\
  (exists d, energy_diff 1 demo = (OK d, demo)).
Proof.
  assert (H64 : Forall int64 (spins demo)).
  { simpl. repeat apply Forall_cons; try apply Forall_nil; unfold int64; lia. }
  split; [exact H64|].
  apply (proj2 (proj2 (energy_diff_restores_spins demo 1 H64))).
  - exact demo_well_formed.
  - simpl. lia.
Defined.

(** C8 as stated fails: on the two-site model the site argument -1 is
    accepted, and the call returns the delta of site 1. *)
Lemma energy_diff_negative_site_accepted :
  energy_diff (-1) demo = (OK 14, demo) /\
  energy_diff (-1) demo = energy_diff 1 demo.
Proof.
  assert (H64 : Forall int64 (spins demo)).
  { simpl. repeat apply Forall_cons; try apply Forall_nil; unfold int64; lia. }
  assert (Hflip : energy (flipped_at demo 1) = OK 14).
  { change (flipped_at demo 1) with (with_spins demo [1; 1]%Z).
    assert (Hwf : well_formed (with_spins demo [1; 1]%Z)).
    { split; [exact demo_consistent|]. split; [reflexivity|].
      simpl.
      repeat apply Forall_cons; try apply Forall_nil; left; reflexivity. }
    rewrite (energy_well_formed _ Hwf).
    unfold hamiltonian, spin_at, at4, at3, at2, at1; simpl.
    f_equal. lra. }
  rewrite (energy_diff_at demo (-1) 1 H64 eq_refl).
  rewrite (energy_diff_at demo 1 1 H64 eq_refl).
  rewrite energy_demo, Hflip.
  split; [|reflexivity].
  f_equal. f_equal. lra.
Qed.

(** C8, amended. On a well-formed model, a site argument [i >= N] or
    [i < -N] makes [energy_diff] raise [IndexError] with the spins untouched
    and no delta returned; a site argument in [-N, 0) is accepted and the
    call behaves exactly as for site [N + i], returning its delta. *)
Theorem energy_diff_site_range (self : GeneralizedIsingModel) (i : Z) :
  well_formed self ->
  ((i < - Z.of_nat (N self) \/ Z.of_nat (N self) <= i)%Z ->
     energy_diff i self = (Raise IndexError, self)) /\
  ((- Z.of_nat (N self) <= i < 0)%Z ->
     energy_diff i self = energy_diff (Z.of_nat (N self) + i) self /\
     exists d, energy_diff i self = (OK d, self)).
Proof.
  intro Hwf.
  pose proof Hwf as [Hcons Hconf].
  pose proof Hconf as [Hlen _].
  pose proof (configuration_int64 _ _ Hconf) as H64.
  split.
  - intro Hi.
    rewrite (energy_diff_bad_index self i IndexError).
    + destruct (energy_total self Hwf) as [e ->]. reflexivity.
    + apply np_index_out. rewrite Hlen. exact Hi.
  - intro Hi.
    assert (Hin : (0 <= Z.of_nat (N self) + i < Z.of_nat (N self))%Z) by lia.
    destruct (energy_diff_in_range self _ Hwf Hin) as (e & e' & _ & _ & Hd).
    assert (Heq : energy_diff i self
                  = energy_diff (Z.of_nat (N self) + i) self).
    { rewrite (energy_diff_at self i (Z.to_nat (Z.of_nat (N self) + i)) H64).
      - rewrite (energy_diff_at self _
                   (Z.to_nat (Z.of_nat (N self) + i)) H64).
        + reflexivity.
        + apply np_index_in. rewrite Hlen. exact Hin.
      - rewrite Hlen. apply np_index_neg. exact Hi. }
    split; [exact Heq|].
    exists (e' - e). rewrite Heq. exact Hd.
Qed.

Lemma energy_diff_site_range_witness :
  well_formed demo /\
  energy_diff 2 demo = (Raise IndexError, demo) /\
  energy_diff (-3) demo = (Raise IndexError, demo) /\
  energy_diff (-2) demo = energy_diff 0 demo.
Proof.
  split; [exact demo_well_formed|].
  pose proof (energy_diff_site_range demo 2 demo_well_formed) as [H2 _].
  pose proof (energy_diff_site_range demo (-3) demo_well_formed) as [H3 _].
  pose proof (energy_diff_site_range demo (-2) demo_well_formed) as [_ Hn].
  split; [apply H2; simpl; lia|].
  split; [apply H3; simpl; lia|].
  apply Hn. simpl. lia.
Defined.

(** ** Construction *)

(** C9 as stated fails: construction succeeds with N = 0, and with N = 2
    and the tensors of a one-site model; the mismatch only shows when
    [energy] is evaluated. *)
Lemma init_accepts_inconsistent_sizes :
  init 0 [] [] [] [] 0 (fun _ => true)
  = OK {| E0 := 0; h := []; J := []; K := []; L := [];
          N := 0; num_spins := 0; spins := [] |} /\
  init 0 [1] [[0]] [[[0]]] [[[[0]]]] 2 (fun _ => true) = OK mismatched /\
  energy mismatched = Raise IndexError.
Proof. repeat split; reflexivity. Qed.

Lemma init_spins_configuration (n : nat) (coins : nat -> bool) :
  configuration n (map (fun k => (2 * b2z (coins k) - 1)%Z) (range n)).
Proof.
  split.
  - rewrite length_map. unfold range. apply length_seq.
  - apply Forall_forall. intros x Hx.
    apply in_map_iff in Hx as (k & <- & _).
    destruct (coins k); [left | right]; reflexivity.
Qed.

(** C9, amended. Construction validates nothing about the tensors: for every
    N >= 0 and whatever the extents of h, J, K, L, it returns an object that
    stores them as given, with a configuration of N spins; a negative N is
    refused with [ValueError] by the random draw. *)
Theorem init_no_validation (e0 : R) (h0 : list R) (J0 : list (list R))
  (K0 : list (list (list R))) (L0 : list (list (list (list R)))) (n : Z)
  (coins : nat -> bool) :
  ((0 <= n)%Z ->
     exists self,
       init e0 h0 J0 K0 L0 n coins = OK self /\
       E0 self = e0 /\ h self = h0 /\ J self = J0 /\ K self = K0 /\
       L self = L0 /\ N self = Z.to_nat n /\ num_spins self = Z.to_nat n /\
       configuration (N self) (spins self)) /\
  ((n < 0)%Z -> init e0 h0 J0 K0 L0 n coins = Raise ValueError).
Proof.
  unfold init. split; intro Hn.
  - assert (E : (n <? 0)%Z = false) by (apply Z.ltb_ge; exact Hn).
    rewrite E. eexists. split; [reflexivity|]. simpl.
    repeat (split; [reflexivity|]).
    apply init_spins_configuration.
  - apply Z.ltb_lt in Hn. rewrite Hn. reflexivity.
Qed.

Lemma init_no_validation_witness :
  exists self,
    init 0 [] [] [] [] 2 (fun _ => true) = OK self /\
    h self = [] /\ N self = 2%nat /\ configuration (N self) (spins self).
Proof.
  destruct (proj1 (init_no_validation 0 [] [] [] [] 2 (fun _ => true)))
    as (self & Hinit & _ & Hh & _ & _ & _ & HN & _ & Hconf).
  - lia.
  - exists self. repeat split; assumption || apply Hconf.
Defined.

(** ** The enumeration of configurations *)

Lemma land_pow2 (d b : Z) :
  (0 <= b)%Z ->
  Z.land d (2 ^ b) = if Z.testbit d b then (2 ^ b)%Z else 0%Z.
Proof.
  intro Hb. apply Z.bits_inj'. intros m Hm.
  rewrite Z.land_spec, Z.pow2_bits_eqb by exact Hb.
  destruct (Z.testbit d b) eqn:E.
  - rewrite Z.pow2_bits_eqb by exact Hb.
    destruct (Z.eqb_spec b m) as [->|_].
    + rewrite E. reflexivity.
    + apply andb_false_r.
  - rewrite Z.bits_0.
    destruct (Z.eqb_spec b m) as [->|_].
    + rewrite E. reflexivity.
    + apply andb_false_r.
Qed.

Lemma land_bit (d b : Z) :
  (0 <= b)%Z -> (Z.land d (Z.shiftl 1 b) >? 0)%Z = Z.testbit d b.
Proof.
  intro Hb. rewrite Z.shiftl_1_l, land_pow2 by exact Hb.
  destruct (Z.testbit d b).
  - apply Z.gtb_lt. apply Z.pow_pos_nonneg; lia.
  - reflexivity.
Qed.

Lemma space_rows (n : nat) :
  space n = map (fun i => space_row n (Z.of_nat i)) (range (2 ^ n)).
Proof.
  unfold space, space_row. rewrite map_map.
  apply map_ext. intro i. rewrite map_map.
  apply map_ext. intro b. unfold spin_of_bit.
  rewrite land_bit by lia.
  destruct (Z.testbit (Z.of_nat i) (Z.of_nat b)); reflexivity.
Qed.

Lemma space_row_S (n : nat) (d : Z) :
  space_row (S n) d = spin_of_bit d 0 :: space_row n (d / 2).
Proof.
  unfold space_row, range. simpl. f_equal.
  rewrite <- seq_shift, map_map.
  apply map_ext. intro b. unfold spin_of_bit.
  rewrite Z.div2_bits by lia.
  rewrite Nat2Z.inj_succ. reflexivity.
Qed.

Lemma space_row_length (n : nat) (d : Z) : length (space_row n d) = n.
Proof. unfold space_row, range. rewrite length_map. apply length_seq. Qed.

Lemma space_row_spins (n : nat) (d : Z) : Forall is_spin (space_row n d).
Proof.
  apply Forall_forall. intros x Hx.
  apply in_map_iff in Hx as (b & <- & _). unfold spin_of_bit.
  destruct (Z.testbit d (Z.of_nat b)); [left | right]; reflexivity.
Qed.

Lemma space_row_configuration (n : nat) (d : Z) :
  configuration n (space_row n d).
Proof. split; [apply space_row_length | apply space_row_spins]. Qed.

(** Reading the bits back recovers the integer. *)
Lemma encode_space_row (n : nat) (d : Z) :
  (0 <= d < 2 ^ Z.of_nat n)%Z -> encode (space_row n d) = d.
Proof.
  revert d. induction n as [|n IH]; intros d Hd.
  - simpl in *. lia.
  - rewrite space_row_S. cbn [encode].
    rewrite Nat2Z.inj_succ, Z.pow_succ_r in Hd by lia.
    rewrite IH by (split; [apply Z.div_pos; lia
                          | apply Z.div_lt_upper_bound; lia]).
    unfold spin_of_bit. change (Z.of_nat 0) with 0%Z.
    rewrite Z.bit0_odd.
    pose proof (Z.div_mod d 2 ltac:(lia)) as Hdm.
    rewrite Zmod_odd in Hdm.
    destruct (Z.odd d); cbn [b2z Z.eqb Pos.eqb]; lia.
Qed.

Lemma encode_range (s : list Z) :
  (0 <= encode s < 2 ^ Z.of_nat (length s))%Z.
Proof.
  induction s as [|x s IH].
  - simpl. lia.
  - cbn [encode length]. rewrite Nat2Z.inj_succ, Z.pow_succ_r by lia.
    destruct (x =? 1)%Z; simpl b2z; lia.
Qed.

(** Every configuration is the row of its code. *)
Lemma space_row_encode (s : list Z) :
  Forall is_spin s -> space_row (length s) (encode s) = s.
Proof.
  induction s as [|x s IH]; intro Hs.
  - reflexivity.
  - inversion Hs as [|? ? Hx Hs']; subst.
    cbn [length encode]. rewrite space_row_S.
    assert (Hdiv : ((b2z (x =? 1) + 2 * encode s) / 2 = encode s)%Z).
    { destruct (x =? 1)%Z; simpl b2z.
      - rewrite Z.add_comm, Z.mul_comm, Z.div_add_l by lia.
        change (1 / 2)%Z with 0%Z. lia.
      - rewrite Z.add_0_l, Z.mul_comm. apply Z.div_mul. lia. }
    rewrite Hdiv, (IH Hs'). f_equal.
    unfold spin_of_bit. change (Z.of_nat 0) with 0%Z.
    destruct Hx as [-> | ->]; simpl b2z.
    + rewrite Z.add_comm, Z.testbit_odd_0. reflexivity.
    + rewrite Z.add_0_l, Z.testbit_even_0. reflexivity.
Qed.

Lemma pow2_of_nat (n : nat) : Z.of_nat (2 ^ n) = (2 ^ Z.of_nat n)%Z.
Proof. rewrite Nat2Z.inj_pow. reflexivity. Qed.

Lemma space_length (n : nat) : length (space n) = (2 ^ n)%nat.
Proof.
  rewrite space_rows, length_map. unfold range. apply length_seq.
Qed.

Lemma space_nth (n i : nat) :
  (i < 2 ^ n)%nat -> nth i (space n) [] = space_row n (Z.of_nat i).
Proof.
  intro Hi. rewrite space_rows.
  rewrite (nth_indep _ [] (space_row n (Z.of_nat 0)))
    by (rewrite length_map; unfold range; rewrite length_seq; exact Hi).
  rewrite (map_nth (fun i => space_row n (Z.of_nat i))).
  unfold range. rewrite seq_nth by exact Hi. reflexivity.
Qed.

Lemma space_in (n : nat) (s : list Z) :
  In s (space n) <-> configuration n s.
Proof.
  rewrite space_rows. split.
  - intro H. apply in_map_iff in H as (i & <- & _).
    apply space_row_configuration.
  - intros [Hlen Hs]. apply in_map_iff.
    pose proof (encode_range s) as Hr. rewrite Hlen in Hr.
    exists (Z.to_nat (encode s)). split.
    + rewrite Z2Nat.id by lia. rewrite <- Hlen.
      apply space_row_encode. exact Hs.
    + apply in_range. rewrite <- pow2_of_nat in Hr. lia.
Qed.

Lemma space_NoDup (n : nat) : NoDup (space n).
Proof.
  rewrite space_rows.
  apply NoDup_map_NoDup_ForallPairs; [|apply seq_NoDup].
  intros i j Hi Hj Heq.
  apply in_range in Hi, Hj.
  apply Nat2Z.inj.
  rewrite <- (encode_space_row n (Z.of_nat i)),
          <- (encode_space_row n (Z.of_nat j)), Heq;
    try reflexivity; rewrite <- pow2_of_nat; lia.
Qed.

(** C5. The encoding sends every integer i in [0, 2^n) to a configuration
    of n spins whose entry b is +1 when bit b of i is set and -1 when it is
    clear; distinct integers give distinct rows, and the rows are exactly
    the configurations of n spins, each listed once. *)
Theorem space_enumerates_once (n : nat) :
  length (space n) = (2 ^ n)%nat /\
  (forall i, (i < 2 ^ n)%nat ->
     length (nth i (space n) []) = n /\
     forall b, (b < n)%nat ->
       nth b (nth i (space n) []) 0%Z
       = if Z.testbit (Z.of_nat i) (Z.of_nat b) then 1%Z else (-1)%Z) /\
  (forall i j, (i < 2 ^ n)%nat -> (j < 2 ^ n)%nat ->
     nth i (space n) [] = nth j (space n) [] -> i = j) /\
  NoDup (space n) /\
  (forall s, In s (space n) <-> configuration n s).
Proof.
  split; [apply space_length|].
  split.
  { intros i Hi. rewrite (space_nth n i Hi).
    split; [apply space_row_length|].
    intros b Hb. unfold space_row.
    rewrite (nth_indep _ 0%Z (spin_of_bit (Z.of_nat i) 0))
      by (rewrite length_map; unfold range; rewrite length_seq; exact Hb).
    rewrite (map_nth (spin_of_bit (Z.of_nat i))).
    unfold range. rewrite seq_nth by exact Hb. reflexivity. }
  split.
  { intros i j Hi Hj Heq.
    rewrite (space_nth n i Hi), (space_nth n j Hj) in Heq.
    apply Nat2Z.inj.
    rewrite <- (encode_space_row n (Z.of_nat i)),
            <- (encode_space_row n (Z.of_nat j)), Heq;
      try reflexivity; rewrite <- pow2_of_nat; lia. }
  split; [apply space_NoDup | apply space_in].
Qed.

(** For up to 63 spins no value built by the enumeration leaves the int64
    range, so numpy's fixed-width arithmetic agrees with the integers used
    in [space]. *)
Lemma space_within_int64 (n i b : nat) :
  (n <= 63)%nat -> (i < 2 ^ n)%nat -> (b < n)%nat ->
  int64 (Z.of_nat i) /\ int64 (Z.shiftl 1 (Z.of_nat b)) /\
  int64 (Z.land (Z.of_nat i) (Z.shiftl 1 (Z.of_nat b))).
Proof.
  intros Hn Hi Hb. unfold int64.
  assert (Hi' : (0 <= Z.of_nat i < 2 ^ 63)%Z).
  { split; [lia|].
    apply Z.lt_le_trans with (2 ^ Z.of_nat n)%Z.
    - rewrite <- pow2_of_nat. lia.
    - apply Z.pow_le_mono_r; lia. }
  assert (Hs : (0 < Z.shiftl 1 (Z.of_nat b) < 2 ^ 63)%Z).
  { rewrite Z.shiftl_1_l. split.
    - apply Z.pow_pos_nonneg; lia.
    - apply Z.pow_lt_mono_r; lia. }
  split; [lia|]. split; [lia|].
  rewrite Z.shiftl_1_l in *. rewrite land_pow2 by lia.
  destruct (Z.testbit (Z.of_nat i) (Z.of_nat b)); lia.
Qed.

(** ** The exhaustive scan *)

Lemma for_each_M_cons {A S : Type} (x : A) (xs : list A)
  (body : A -> S -> M S) (s : S) (self : GeneralizedIsingModel) :
  for_each_M (x :: xs) body s self =
  match body x s self with
  | (OK s', self') => for_each_M xs body s' self'
  | (Raise e, self') => (Raise e, self')
  end.
Proof. reflexivity. Qed.

Lemma bindM_read {A B : Type} (g : GeneralizedIsingModel -> result A)
  (k : A -> M B) (self : GeneralizedIsingModel) :
  (x <~ read g ;; k x) self =
  match g self with
  | OK a => k a self
  | Raise e => (Raise e, self)
  end.
Proof. unfold bindM, read. destruct (g self); reflexivity. Qed.

(** A loop over the positions of an array is a loop over its entries. *)
Lemma for_each_M_index_from {A T : Type} (pre rows : list A)
  (f : A -> T -> M T) (s : T) (self : GeneralizedIsingModel) :
  for_each_M (seq (length pre) (length rows))
    (fun i s => row <~ read (fun _ => item (pre ++ rows) i) ;; f row s) s self
  = for_each_M rows f s self.
Proof.
  revert pre s self. induction rows as [|r rows IH]; intros pre s self.
  - reflexivity.
  - cbn [length seq]. rewrite !for_each_M_cons, bindM_read.
    unfold item at 1.
    rewrite nth_error_app2, Nat.sub_diag by lia. cbn [nth_error].
    destruct (f r s self) as [[s'|e] self']; [|reflexivity].
    replace (pre ++ r :: rows) with ((pre ++ [r]) ++ rows)
      by (rewrite <- app_assoc; reflexivity).
    replace (S (length pre)) with (length (pre ++ [r]))
      by (rewrite length_app; simpl; lia).
    apply IH.
Qed.

Lemma for_each_M_index {A S : Type} (rows : list A) (f : A -> S -> M S)
  (s : S) (self : GeneralizedIsingModel) :
  for_each_M (range (length rows))
    (fun i s => row <~ read (fun _ => item rows i) ;; f row s) s self
  = for_each_M rows f s self.
Proof. exact (for_each_M_index_from [] rows f s self). Qed.

Lemma exhaustive_search_rows (self : GeneralizedIsingModel) :
  exhaustive_search self
  = for_each_M (space (num_spins self)) search_step None self.
Proof.
  unfold exhaustive_search. unfold bindM at 1. unfold read at 1.
  rewrite <- (space_length (num_spins self)).
  exact (for_each_M_index (space (num_spins self)) search_step None self).
Qed.

Lemma search_step_run (row : list Z) (min : option R)
  (self : GeneralizedIsingModel) :
  search_step row min self =
  match energy (with_spins self row) with
  | OK e => (OK (keep_min min e), with_spins self row)
  | Raise e => (Raise e, with_spins self row)
  end.
Proof.
  unfold search_step, bindM, set_spins, read, keep_min, ret.
  destruct (energy (with_spins self row)) as [e|e]; [|reflexivity].
  destruct min as [m|]; [|reflexivity].
  destruct (Rgt_dec m e); reflexivity.
Qed.

Lemma last_cons_default {A : Type} (r : A) (rows : list A) (d : A) :
  last (r :: rows) d = last rows r.
Proof.
  revert r d. induction rows as [|r' rows IH]; intros r d.
  - reflexivity.
  - change (last (r :: r' :: rows) d) with (last (r' :: rows) d).
    rewrite (IH r' d), (IH r' r). reflexivity.
Qed.

(** Whenever the scan loop completes, the object holds the last row. *)
Lemma scan_final_state (rows : list (list Z)) (min r : option R)
  (self self' : GeneralizedIsingModel) :
  for_each_M rows search_step min self = (OK r, self') ->
  self' = with_spins self (last rows (spins self)).
Proof.
  revert min self. induction rows as [|row rows IH]; intros min self Hrun.
  - simpl in Hrun. unfold ret in Hrun. injection Hrun as _ <-.
    simpl. symmetry. apply with_spins_id.
  - cbn [for_each_M] in Hrun. unfold bindM in Hrun.
    rewrite search_step_run in Hrun.
    destruct (energy (with_spins self row)) as [e|e]; [|discriminate].
    apply IH in Hrun. rewrite Hrun.
    rewrite last_cons_default. reflexivity.
Qed.

(** On a consistent model the scan loop completes, with the running
    minimum of the energies of the rows. *)
Lemma scan_rows_ok (rows : list (list Z)) (min : option R)
  (self : GeneralizedIsingModel) :
  consistent self ->
  Forall (fun row => length row = N self) rows ->
  for_each_M rows search_step min self
  = (OK (fold_left
           (fun m row => keep_min m (energy_value (with_spins self row)))
           rows min),
     with_spins self (last rows (spins self))).
Proof.
  intros Hcons Hrows. revert min self Hcons Hrows.
  induction rows as [|row rows IH]; intros min self Hcons Hrows.
  - simpl. unfold ret. rewrite with_spins_id. reflexivity.
  - inversion Hrows as [|? ? Hrow Hrows']; subst.
    cbn [for_each_M fold_left]. unfold bindM.
    rewrite search_step_run.
    rewrite (energy_eval (with_spins self row) Hcons Hrow).
    rewrite (IH _ (with_spins self row) Hcons Hrows').
    rewrite last_cons_default. reflexivity.
Qed.

(** The running minimum is a lower bound of what it has seen and is one of
    the values it has seen. *)
Lemma fold_keep_min {A : Type} (E : A -> R) (rows : list A) (m0 : R) :
  exists m,
    fold_left (fun m row => keep_min m (E row)) rows (Some m0) = Some m /\
    m <= m0 /\
    (forall row, In row rows -> m <= E row) /\
    (m = m0 \/ exists row, In row rows /\ m = E row).
Proof.
  revert m0. induction rows as [|r rows IH]; intro m0.
  - exists m0. simpl. repeat split; [lra | intros ? [] | left; reflexivity].
  - cbn [fold_left]. unfold keep_min at 2.
    destruct (Rgt_dec m0 (E r)) as [Hgt|Hle].
    + destruct (IH (E r)) as (m & Hm & Hb & Hall & Hex).
      exists m. split; [exact Hm|]. split; [lra|]. split.
      * intros row [<-|Hin]; [exact Hb | apply Hall; exact Hin].
      * right. destruct Hex as [->|(row & Hin & ->)].
        -- exists r. split; [left; reflexivity | reflexivity].
        -- exists row. split; [right; exact Hin | reflexivity].
    + destruct (IH m0) as (m & Hm & Hb & Hall & Hex).
      exists m. split; [exact Hm|]. split; [exact Hb|]. split.
      * intros row [<-|Hin]; [lra | apply Hall; exact Hin].
      * destruct Hex as [->|(row & Hin & ->)]; [left; reflexivity|].
        right. exists row. split; [right; exact Hin | reflexivity].
Qed.

Lemma fold_keep_min_nonempty {A : Type} (E : A -> R) (r : A) (rows : list A) :
  exists m,
    fold_left (fun m row => keep_min m (E row)) (r :: rows) None = Some m /\
    (forall row, In row (r :: rows) -> m <= E row) /\
    (exists row, In row (r :: rows) /\ m = E row).
Proof.
  cbn [fold_left keep_min].
  destruct (fold_keep_min E rows (E r)) as (m & Hm & Hb & Hall & Hex).
  exists m. split; [exact Hm|]. split.
  - intros row [<-|Hin]; [exact Hb | apply Hall; exact Hin].
  - destruct Hex as [->|(row & Hin & ->)].
    + exists r. split; [left; reflexivity | reflexivity].
    + exists row. split; [right; exact Hin | reflexivity].
Qed.

Lemma space_nonempty (n : nat) : exists r rows, space n = r :: rows.
Proof.
  pose proof (space_length n) as Hlen.
  destruct (space n) as [|r rows].
  - simpl in Hlen. pose proof (Nat.pow_nonzero 2 n). lia.
  - eauto.
Qed.

Lemma map_constant {A B : Type} (f : A -> B) (c : B) (l : list A) :
  (forall x, In x l -> f x = c) -> map f l = repeat c (length l).
Proof.
  induction l as [|x l IH]; intro Hf; simpl.
  - reflexivity.
  - rewrite Hf by (left; reflexivity).
    rewrite IH by (intros y Hy; apply Hf; right; exact Hy). reflexivity.
Qed.

(** The last row of [space] is the all-ones configuration. *)
Lemma space_last (n : nat) (d : list Z) : last (space n) d = repeat 1%Z n.
Proof.
  rewrite space_rows.
  destruct (2 ^ n)%nat as [|p] eqn:Hp.
  - pose proof (Nat.pow_nonzero 2 n). lia.
  - rewrite range_S, map_app. cbn [map]. rewrite last_last.
    unfold space_row.
    rewrite (map_constant _ 1%Z).
    + unfold range. rewrite length_seq. reflexivity.
    + intros b Hb. apply in_range in Hb. unfold spin_of_bit.
      replace (Z.of_nat p) with (Z.ones (Z.of_nat n)).
      * rewrite Z.ones_spec_low by lia. reflexivity.
      * rewrite Z.ones_equiv, <- pow2_of_nat, Hp. lia.
Qed.

Lemma space_rows_length (n : nat) :
  Forall (fun row => length row = n) (space n).
Proof.
  apply Forall_forall. intros s Hs. apply space_in in Hs. apply Hs.
Qed.

(** What the scan computes on a consistent model. *)
Lemma exhaustive_search_run (self : GeneralizedIsingModel) :
  consistent self ->
  exists m,
    exhaustive_search self
    = (OK (Some m), with_spins self (repeat 1%Z (num_spins self))) /\
    (exists s, configuration (N self) s /\
               energy (with_spins self s) = OK m) /\
    (forall s, configuration (N self) s ->
       exists e, energy (with_spins self s) = OK e /\ m <= e).
Proof.
  intro Hcons.
  assert (Hn : num_spins self = N self) by apply Hcons.
  pose (E := fun row => energy_value (with_spins self row)).
  assert (HE : forall s, configuration (N self) s ->
                 energy (with_spins self s) = OK (E s)).
  { intros s [Hlen _]. apply (energy_eval (with_spins self s) Hcons Hlen). }
  rewrite exhaustive_search_rows.
  rewrite scan_rows_ok
    by (try exact Hcons; rewrite <- Hn; apply space_rows_length).
  rewrite space_last.
  destruct (space_nonempty (num_spins self)) as (r & rows & Hsp).
  destruct (fold_keep_min_nonempty E r rows) as (m & Hm & Hall & Hex).
  rewrite <- Hsp in Hm, Hall, Hex.
  exists m. split; [|split].
  - unfold E in Hm. rewrite Hm. reflexivity.
  - destruct Hex as (row & Hin & ->).
    apply space_in in Hin. rewrite Hn in Hin.
    exists row. split; [exact Hin | apply HE; exact Hin].
  - intros s Hs. exists (E s). split; [apply HE; exact Hs|].
    apply Hall. apply space_in. rewrite Hn. exact Hs.
Qed.






Lemma favours_up_energy (x : Z) :
  is_spin x -> energy (with_spins favours_up [x]) = OK (IZR (- x)).
Proof.
  intro Hx.
  assert (Hwf : well_formed (with_spins favours_up [x])).
  { split.
    - unfold consistent, shape4, shape3, shape2, shape1; simpl.
      repeat (split || constructor).
    - split; [reflexivity|].
      simpl. apply Forall_cons; [exact Hx | apply Forall_nil]. }
  rewrite (energy_well_formed _ Hwf).
  unfold hamiltonian, spin_at, at4, at3, at2, at1; simpl.
  f_equal. rewrite opp_IZR. lra.
Qed.

(** C10 as stated fails: on the one-site model with [h = [-1]] that holds
    the spin +1, the scan yields the minimum -1 and leaves the object exactly
    as it was: the configuration it leaves is the one held before the scan,
    and it is a minimizing configuration, its energy being the minimum. *)
Lemma exhaustive_search_can_leave_minimizer :
  exhaustive_search favours_up = (OK (Some (-1)), favours_up) /\
  energy favours_up = OK (-1) /\
  (forall s, configuration (N favours_up) s ->
     exists e, energy (with_spins favours_up s) = OK e /\ -1 <= e).
Proof.
  assert (Hup : energy favours_up = OK (-1))
    by (apply (favours_up_energy 1); left; reflexivity).
  split; [|split; [exact Hup|]].
  - rewrite exhaustive_search_rows.
    change (space (num_spins favours_up)) with [[-1]%Z; [1]%Z].
    rewrite for_each_M_cons, search_step_run.
    rewrite (favours_up_energy (-1)) by (right; reflexivity).
    rewrite for_each_M_cons, search_step_run.
    change (with_spins (with_spins favours_up [-1]%Z) [1]%Z)
      with favours_up.
    rewrite Hup.
    cbn [for_each_M ret keep_min Z.opp Pos.pred_double].
    destruct (Rgt_dec 1 (-1)) as [_|Hn]; [reflexivity | lra].
  - intros s [Hlen Hs].
    destruct s as [|x [|? ?]]; try discriminate.
    inversion Hs as [|? ? Hx _]; subst.
    exists (IZR (- x)). split; [apply favours_up_energy; exact Hx|].
    destruct Hx as [-> | ->]; simpl; lra.
Qed.

(** C10, amended. Whenever the scan completes, the object holds the last row
    enumerated, which is the all-ones configuration, whatever it held before
    and whatever the minimizers are; nothing else of the object changes: the
    scan overwrites the spins and does not restore them.  On a consistent
    model the scan does complete. *)
Theorem exhaustive_search_leaves_last_row (self : GeneralizedIsingModel) :
  (forall r self', exhaustive_search self = (OK r, self') ->
     spins self' = last (space (num_spins self)) (spins self) /\
     spins self' = repeat 1%Z (num_spins self) /\
     self' = with_spins self (repeat 1%Z (num_spins self))) /\
  (consistent self ->
     exists r, exhaustive_search self
               = (OK r, with_spins self (repeat 1%Z (num_spins self)))).
Proof.
  split.
  - intros r self' Hrun.
    rewrite exhaustive_search_rows in Hrun.
    apply scan_final_state in Hrun. subst self'.
    rewrite space_last. simpl. auto.
  - intro Hcons.
    destruct (exhaustive_search_run self Hcons) as (m & Hrun & _).
    exists (Some m). exact Hrun.
Qed.

Lemma exhaustive_search_leaves_last_row_witness :
  consistent demo /\
  exists r, exhaustive_search demo = (OK r, with_spins demo [1; 1]%Z).
Proof.
  split; [exact demo_consistent|].
  apply (proj2 (exhaustive_search_leaves_last_row demo)).
  exact demo_consistent.
Defined.

(** ** The end-to-end scenario: repeated-index entries contribute *)

Lemma diagonal_consistent : consistent diagonal.
Proof.
  unfold consistent, shape4, shape3, shape2, shape1; simpl.
  repeat (split || constructor).
Qed.

(** Every configuration of the diagonal model has energy -4. *)
Lemma diagonal_energy (s : list Z) :
  configuration 4 s -> energy (with_spins diagonal s) = OK (-4).
Proof.
  intro Hconf.
  rewrite energy_well_formed
    by (split; [exact diagonal_consistent | exact Hconf]).
  destruct Hconf as [Hlen Hs].
  destruct s as [|a [|b [|c [|d [|? ?]]]]]; try discriminate.
  inversion Hs as [|? ? Ha Hs1]; subst.
  inversion Hs1 as [|? ? Hb Hs2]; subst.
  inversion Hs2 as [|? ? Hc Hs3]; subst.
  inversion Hs3 as [|? ? Hd _]; subst.
  f_equal.
  destruct Ha as [-> | ->], Hb as [-> | ->], Hc as [-> | ->],
           Hd as [-> | ->];
    unfold hamiltonian, spin_at, at4, at3, at2, at1; simpl; lra.
Qed.

(** The scan of the diagonal model yields -4. *)
Lemma diagonal_search : fst (exhaustive_search diagonal) = OK (Some (-4)).
Proof.
  destruct (exhaustive_search_run diagonal diagonal_consistent)
    as (m & Hrun & (s & Hs & Hm) & _).
  rewrite Hrun. simpl.
  rewrite (diagonal_energy s Hs) in Hm. injection Hm as <-. reflexivity.
Qed.

(** ** The annealing schedule *)







(** * Further properties of the code *)

(** ** Which entries [energy] reads, and when it raises *)

Lemma energy_ext_in_range (self self' : GeneralizedIsingModel) :
  N self = N self' -> E0 self = E0 self' ->
  (forall i, (i < N self')%nat -> term_h self i = term_h self' i) ->
  (forall i j, (i < N self')%nat -> (j < N self')%nat ->
     term_J self i j = term_J self' i j) ->
  (forall i j k, (i < N self')%nat -> (j < N self')%nat ->
     (k < N self')%nat -> term_K self i j k = term_K self' i j k) ->
  (forall i j k l, (i < N self')%nat -> (j < N self')%nat ->
     (k < N self')%nat -> (l < N self')%nat ->
     term_L self i j k l = term_L self' i j k l) ->
  energy self = energy self'.
Proof.
  intros HN HE Hh HJ HK HL. unfold energy. rewrite HN, HE.
  f_equal.
  apply for_each_ext; intros i t Hi. apply in_range in Hi.
  rewrite Hh by exact Hi.
  destruct (term_h self' i) as [x|e]; simpl; [|reflexivity].
  apply for_each_ext; intros j t1 Hj. apply in_range in Hj.
  rewrite HJ by assumption.
  destruct (term_J self' i j) as [y|e]; simpl; [|reflexivity].
  apply for_each_ext; intros k t2 Hk. apply in_range in Hk.
  rewrite HK by assumption.
  destruct (term_K self' i j k) as [z|e]; simpl; [|reflexivity].
  apply for_each_ext; intros l t3 Hl. apply in_range in Hl.
  rewrite HL by assumption.
  reflexivity.
Qed.

Lemma item_firstn {A : Type} (n : nat) (a : list A) (i : nat) :
  (i < n)%nat -> item (firstn n a) i = item a i.
Proof.
  intro Hi. unfold item. rewrite nth_error_firstn.
  apply Nat.ltb_lt in Hi. rewrite Hi. reflexivity.
Qed.

Lemma item_map {A B : Type} (f : A -> B) (a : list A) (i : nat) :
  item (map f a) i
  = match item a i with OK x => OK (f x) | Raise e => Raise e end.
Proof.
  unfold item. rewrite nth_error_map.
  destruct (nth_error a i); reflexivity.
Qed.

Lemma item1_trunc (n : nat) (a : list R) (i : nat) :
  (i < n)%nat -> item (trunc1 n a) i = item a i.
Proof. apply item_firstn. Qed.

Lemma item2_trunc (n : nat) (a : list (list R)) (i j : nat) :
  (i < n)%nat -> (j < n)%nat -> item2 (trunc2 n a) i j = item2 a i j.
Proof.
  intros Hi Hj. unfold item2, trunc2.
  rewrite item_map, item_firstn by exact Hi.
  destruct (item a i) as [r|e]; simpl; [|reflexivity].
  apply item1_trunc. exact Hj.
Qed.

Lemma item3_trunc (n : nat) (a : list (list (list R))) (i j k : nat) :
  (i < n)%nat -> (j < n)%nat -> (k < n)%nat ->
  item3 (trunc3 n a) i j k = item3 a i j k.
Proof.
  intros Hi Hj Hk. unfold item3, trunc3.
  rewrite item_map, item_firstn by exact Hi.
  destruct (item a i) as [r|e]; simpl; [|reflexivity].
  apply item2_trunc; assumption.
Qed.

Lemma item4_trunc (n : nat) (a : list (list (list (list R))))
  (i j k l : nat) :
  (i < n)%nat -> (j < n)%nat -> (k < n)%nat -> (l < n)%nat ->
  item4 (trunc4 n a) i j k l = item4 a i j k l.
Proof.
  intros Hi Hj Hk Hl. unfold item4, trunc4.
  rewrite item_map, item_firstn by exact Hi.
  destruct (item a i) as [r|e]; simpl; [|reflexivity].
  apply item3_trunc; assumption.
Qed.

Lemma energy_leading_block (self : GeneralizedIsingModel) :
  energy (leading_block self) = energy self.
Proof.
  apply energy_ext_in_range; try reflexivity.
  - intros i Hi. unfold term_h. cbn [h spins leading_block].
    rewrite item1_trunc, item_firstn by exact Hi. reflexivity.
  - intros i j Hi Hj. unfold term_J. cbn [J spins leading_block].
    rewrite item2_trunc, !item_firstn by assumption. reflexivity.
  - intros i j k Hi Hj Hk. unfold term_K. cbn [K spins leading_block].
    rewrite item3_trunc, !item_firstn by assumption. reflexivity.
  - intros i j k l Hi Hj Hk Hl. unfold term_L. cbn [L spins leading_block].
    rewrite item4_trunc, !item_firstn by assumption. reflexivity.
Qed.

Lemma nth_map_default {A B : Type} (f : A -> B) (a : list A) (i : nat)
  (d : A) (d' : B) :
  f d = d' -> nth i (map f a) d' = f (nth i a d).
Proof. intros <-. apply map_nth. Qed.

Lemma nth_firstn_in {A : Type} (n : nat) (a : list A) (i : nat) (d : A) :
  (i < n)%nat -> nth i (firstn n a) d = nth i a d.
Proof.
  intro Hi. rewrite nth_firstn.
  apply Nat.ltb_lt in Hi. rewrite Hi. reflexivity.
Qed.

Lemma Forall_map_firstn {A B : Type} (P : B -> Prop) (f : A -> B) (n : nat)
  (a : list A) (d : A) :
  (forall i, (i < n)%nat -> P (f (nth i a d))) ->
  Forall P (map f (firstn n a)).
Proof.
  intro HP. apply Forall_forall. intros y Hy.
  apply in_map_iff in Hy as (x & <- & Hx).
  destruct (In_nth _ _ d Hx) as (i & Hi & <-).
  pose proof (firstn_le_length n a) as Hle.
  rewrite nth_firstn_in by lia. apply HP. lia.
Qed.

Lemma length_firstn_covers {A : Type} (n : nat) (a : list A) :
  (n <= length a)%nat -> length (firstn n a) = n.
Proof. intro H. rewrite length_firstn. lia. Qed.

Lemma trunc1_shape (n : nat) (a : list R) :
  covers1 n a -> shape1 n (trunc1 n a).
Proof. apply length_firstn_covers. Qed.

Lemma trunc2_shape (n : nat) (a : list (list R)) :
  covers2 n a -> shape2 n (trunc2 n a).
Proof.
  intros [Hlen Hrows]. unfold trunc2. split.
  - rewrite length_map. apply length_firstn_covers. exact Hlen.
  - apply (Forall_map_firstn _ _ _ _ []).
    intros i Hi. apply trunc1_shape. apply Hrows. exact Hi.
Qed.

Lemma trunc3_shape (n : nat) (a : list (list (list R))) :
  covers3 n a -> shape3 n (trunc3 n a).
Proof.
  intros [Hlen Hrows]. unfold trunc3. split.
  - rewrite length_map. apply length_firstn_covers. exact Hlen.
  - apply (Forall_map_firstn _ _ _ _ []).
    intros i Hi. apply trunc2_shape. apply Hrows. exact Hi.
Qed.

Lemma trunc4_shape (n : nat) (a : list (list (list (list R)))) :
  covers4 n a -> shape4 n (trunc4 n a).
Proof.
  intros [Hlen Hrows]. unfold trunc4. split.
  - rewrite length_map. apply length_firstn_covers. exact Hlen.
  - apply (Forall_map_firstn _ _ _ _ []).
    intros i Hi. apply trunc3_shape. apply Hrows. exact Hi.
Qed.

Lemma at1_trunc (n : nat) (a : list R) (i : nat) :
  (i < n)%nat -> at1 (trunc1 n a) i = at1 a i.
Proof. intro Hi. unfold at1, trunc1. apply nth_firstn_in. exact Hi. Qed.

Lemma at2_trunc (n : nat) (a : list (list R)) (i j : nat) :
  (i < n)%nat -> (j < n)%nat -> at2 (trunc2 n a) i j = at2 a i j.
Proof.
  intros Hi Hj. unfold at2, trunc2.
  rewrite (nth_map_default (trunc1 n) _ i [] []) by apply firstn_nil.
  rewrite nth_firstn_in by exact Hi. apply at1_trunc. exact Hj.
Qed.

Lemma at3_trunc (n : nat) (a : list (list (list R))) (i j k : nat) :
  (i < n)%nat -> (j < n)%nat -> (k < n)%nat ->
  at3 (trunc3 n a) i j k = at3 a i j k.
Proof.
  intros Hi Hj Hk. unfold at3, trunc3.
  rewrite (nth_map_default (trunc2 n) _ i [] [])
    by (unfold trunc2; rewrite firstn_nil; reflexivity).
  rewrite nth_firstn_in by exact Hi. apply at2_trunc; assumption.
Qed.

Lemma at4_trunc (n : nat) (a : list (list (list (list R)))) (i j k l : nat) :
  (i < n)%nat -> (j < n)%nat -> (k < n)%nat -> (l < n)%nat ->
  at4 (trunc4 n a) i j k l = at4 a i j k l.
Proof.
  intros Hi Hj Hk Hl. unfold at4, trunc4.
  rewrite (nth_map_default (trunc3 n) _ i [] [])
    by (unfold trunc3; rewrite firstn_nil; reflexivity).
  rewrite nth_firstn_in by exact Hi. apply at3_trunc; assumption.
Qed.

Lemma leading_block_consistent (self : GeneralizedIsingModel) :
  covers_tensors self -> consistent (leading_block self).
Proof.
  intros (Hh & HJ & HK & HL).
  unfold consistent. cbn [h J K L N num_spins leading_block].
  repeat split.
  - apply trunc1_shape. exact Hh.
  - apply trunc2_shape. exact HJ.
  - apply trunc2_shape. exact HJ.
  - apply trunc3_shape. exact HK.
  - apply trunc3_shape. exact HK.
  - apply trunc4_shape. exact HL.
  - apply trunc4_shape. exact HL.
Qed.

(** X1. Entries beyond extent [N] are never read: two objects whose arrays
    have the same leading block of extent [N], whatever the arrays hold
    beyond it, get the same result from [energy], the same value or the
    same exception. *)
Theorem energy_reads_leading_block (self self' : GeneralizedIsingModel) :
  leading_block self = leading_block self' ->
  energy self = energy self'.
Proof.
  intro Hblock.
  rewrite <- (energy_leading_block self), Hblock.
  apply energy_leading_block.
Qed.

Lemma bindR_ok {A B : Type} (r : result A) (k : A -> result B) (b : B) :
  bindR r k = OK b -> exists a, r = OK a /\ k a = OK b.
Proof. destruct r as [a|e]; simpl; [eauto | discriminate]. Qed.

Lemma bindR_raise {A B : Type} (r : result A) (k : A -> result B) (e : exn) :
  bindR r k = Raise e -> r = Raise e \/ exists a, r = OK a /\ k a = Raise e.
Proof.
  destruct r as [a|e']; simpl; [eauto|].
  intro H. injection H as ->. left. reflexivity.
Qed.

Lemma for_each_ok_body {A S : Type} (xs : list A) (f : A -> S -> result S)
  (s s' : S) :
  for_each xs f s = OK s' ->
  forall x, In x xs -> exists s1 s2, f x s1 = OK s2.
Proof.
  revert s. induction xs as [|y xs IH]; intros s Hrun x Hx.
  - destruct Hx.
  - simpl in Hrun. apply bindR_ok in Hrun as (s1 & Hy & Hrest).
    destruct Hx as [<-|Hx]; [eauto | eapply IH; eassumption].
Qed.

Lemma for_each_raise_body {A S : Type} (xs : list A) (f : A -> S -> result S)
  (s : S) (e : exn) :
  for_each xs f s = Raise e ->
  exists x s1, In x xs /\ f x s1 = Raise e.
Proof.
  revert s. induction xs as [|y xs IH]; intros s Hrun.
  - discriminate.
  - simpl in Hrun. apply bindR_raise in Hrun as [Hy|(s1 & Hy & Hrest)].
    + exists y, s. split; [left; reflexivity | exact Hy].
    + destruct (IH _ Hrest) as (x & s2 & Hx & Hf).
      exists x, s2. split; [right; exact Hx | exact Hf].
Qed.

Lemma item_ok_lt {A : Type} (a : list A) (i : nat) (x d : A) :
  item a i = OK x -> (i < length a)%nat /\ nth i a d = x.
Proof.
  unfold item. destruct (nth_error a i) as [y|] eqn:E; [|discriminate].
  intro H. injection H as <-. split.
  - apply nth_error_Some. congruence.
  - apply nth_error_nth. exact E.
Qed.

Lemma item_raise {A : Type} (a : list A) (i : nat) (e : exn) :
  item a i = Raise e -> e = IndexError.
Proof.
  unfold item. destruct (nth_error a i); [discriminate|].
  intro H. injection H as <-. reflexivity.
Qed.

Lemma le_of_pointwise (n len : nat) :
  (forall i, (i < n)%nat -> (i < len)%nat) -> (n <= len)%nat.
Proof.
  intro H. destruct n as [|n]; [lia|].
  specialize (H n ltac:(lia)). lia.
Qed.

Lemma item2_ok_lt (a : list (list R)) (i j : nat) (c : R) :
  item2 a i j = OK c ->
  (i < length a)%nat /\ (j < length (nth i a []))%nat.
Proof.
  unfold item2. intro H. apply bindR_ok in H as (r & Hr & Hc).
  apply (item_ok_lt _ _ _ []) in Hr as [Hi <-].
  apply (item_ok_lt _ _ _ 0) in Hc as [Hj _]. auto.
Qed.

Lemma item3_ok_lt (a : list (list (list R))) (i j k : nat) (c : R) :
  item3 a i j k = OK c ->
  (i < length a)%nat /\ (j < length (nth i a []))%nat /\
  (k < length (nth j (nth i a []) []))%nat.
Proof.
  unfold item3. intro H. apply bindR_ok in H as (r & Hr & Hc).
  apply (item_ok_lt _ _ _ []) in Hr as [Hi <-].
  apply item2_ok_lt in Hc. tauto.
Qed.

Lemma item4_ok_lt (a : list (list (list (list R)))) (i j k l : nat) (c : R) :
  item4 a i j k l = OK c ->
  (i < length a)%nat /\ (j < length (nth i a []))%nat /\
  (k < length (nth j (nth i a []) []))%nat /\
  (l < length (nth k (nth j (nth i a []) []) []))%nat.
Proof.
  unfold item4. intro H. apply bindR_ok in H as (r & Hr & Hc).
  apply (item_ok_lt _ _ _ []) in Hr as [Hi <-].
  apply item3_ok_lt in Hc. tauto.
Qed.

(** A run of [energy] that returns has performed every lookup of every
    loop pass successfully. *)
Lemma energy_ok_terms (self : GeneralizedIsingModel) (e : R) :
  energy self = OK e ->
  forall i j k l, (i < N self)%nat -> (j < N self)%nat ->
    (k < N self)%nat -> (l < N self)%nat ->
    (exists x, term_h self i = OK x) /\
    (exists x, term_J self i j = OK x) /\
    (exists x, term_K self i j k = OK x) /\
    (exists x, term_L self i j k l = OK x).
Proof.
  unfold energy. intros Hrun i j k l Hi Hj Hk Hl.
  apply in_range in Hi, Hj, Hk, Hl.
  apply bindR_ok in Hrun as (t & Hloop & _).
  destruct (for_each_ok_body _ _ _ _ Hloop i Hi) as (t1 & t1' & Hbi).
  apply bindR_ok in Hbi as (xh & Hh & Hloopj).
  destruct (for_each_ok_body _ _ _ _ Hloopj j Hj) as (t2 & t2' & Hbj).
  apply bindR_ok in Hbj as (xJ & HJ & Hloopk).
  destruct (for_each_ok_body _ _ _ _ Hloopk k Hk) as (t3 & t3' & Hbk).
  apply bindR_ok in Hbk as (xK & HK & Hloopl).
  destruct (for_each_ok_body _ _ _ _ Hloopl l Hl) as (t4 & t4' & Hbl).
  apply bindR_ok in Hbl as (xL & HL & _).
  eauto 10.
Qed.

Ltac raise_is_IndexError :=
  repeat match goal with
         | H : bindR _ _ = Raise _ |- _ =>
             apply bindR_raise in H as [H|(? & _ & H)]
         | H : item _ _ = Raise _ |- _ => exact (item_raise _ _ _ H)
         | H : OK _ = Raise _ |- _ => discriminate H
         end.

Lemma term_h_raise (self : GeneralizedIsingModel) (i : nat) (e : exn) :
  term_h self i = Raise e -> e = IndexError.
Proof. unfold term_h. intro H. raise_is_IndexError. Qed.

Lemma term_J_raise (self : GeneralizedIsingModel) (i j : nat) (e : exn) :
  term_J self i j = Raise e -> e = IndexError.
Proof. unfold term_J, item2. intro H. raise_is_IndexError. Qed.

Lemma term_K_raise (self : GeneralizedIsingModel) (i j k : nat) (e : exn) :
  term_K self i j k = Raise e -> e = IndexError.
Proof. unfold term_K, item3, item2. intro H. raise_is_IndexError. Qed.

Lemma term_L_raise (self : GeneralizedIsingModel) (i j k l : nat) (e : exn) :
  term_L self i j k l = Raise e -> e = IndexError.
Proof. unfold term_L, item4, item3, item2. intro H. raise_is_IndexError. Qed.

(** The only exception [energy] raises is [IndexError]. *)
Lemma energy_raise_IndexError (self : GeneralizedIsingModel) (e : exn) :
  energy self = Raise e -> e = IndexError.
Proof.
  unfold energy. intro Hrun.
  apply bindR_raise in Hrun as [Hi|(t & _ & Hk)]; [|discriminate].
  apply for_each_raise_body in Hi as (i & t1 & _ & Hi).
  apply bindR_raise in Hi as [Hh|(xh & _ & Hj)];
    [exact (term_h_raise _ _ _ Hh)|].
  apply for_each_raise_body in Hj as (j & t2 & _ & Hj).
  apply bindR_raise in Hj as [HJ|(xJ & _ & Hk)];
    [exact (term_J_raise _ _ _ _ HJ)|].
  apply for_each_raise_body in Hk as (k & t3 & _ & Hk).
  apply bindR_raise in Hk as [HK|(xK & _ & Hl)];
    [exact (term_K_raise _ _ _ _ _ HK)|].
  apply for_each_raise_body in Hl as (l & t4 & _ & Hl).
  apply bindR_raise in Hl as [HL|(xL & _ & Hl)];
    [exact (term_L_raise _ _ _ _ _ _ HL) | discriminate].
Qed.

Lemma energy_ok_covers (self : GeneralizedIsingModel) (e : R) :
  energy self = OK e -> covers self.
Proof.
  intro Hrun.
  pose proof (energy_ok_terms self e Hrun) as Hterms.
  assert (Hh : forall i, (i < N self)%nat ->
            (i < length (h self))%nat /\ (i < length (spins self))%nat).
  { intros i Hi. destruct (Hterms i i i i Hi Hi Hi Hi) as ((x & Hx) & _).
    unfold term_h in Hx.
    apply bindR_ok in Hx as (c & Hc & Hx).
    apply bindR_ok in Hx as (si & Hsi & _).
    apply (item_ok_lt _ _ _ 0) in Hc as [Hc _].
    apply (item_ok_lt _ _ _ 0%Z) in Hsi as [Hsi _]. auto. }
  assert (HJ : forall i j, (i < N self)%nat -> (j < N self)%nat ->
            (i < length (J self))%nat /\
            (j < length (nth i (J self) []))%nat).
  { intros i j Hi Hj.
    destruct (Hterms i j j j Hi Hj Hj Hj) as (_ & (x & Hx) & _).
    unfold term_J in Hx. apply bindR_ok in Hx as (c & Hc & _).
    apply item2_ok_lt in Hc. exact Hc. }
  assert (HK : forall i j k, (i < N self)%nat -> (j < N self)%nat ->
            (k < N self)%nat ->
            (i < length (K self))%nat /\
            (j < length (nth i (K self) []))%nat /\
            (k < length (nth j (nth i (K self) []) []))%nat).
  { intros i j k Hi Hj Hk.
    destruct (Hterms i j k k Hi Hj Hk Hk) as (_ & _ & (x & Hx) & _).
    unfold term_K in Hx. apply bindR_ok in Hx as (c & Hc & _).
    apply item3_ok_lt in Hc. exact Hc. }
  assert (HL : forall i j k l, (i < N self)%nat -> (j < N self)%nat ->
            (k < N self)%nat -> (l < N self)%nat ->
            (i < length (L self))%nat /\
            (j < length (nth i (L self) []))%nat /\
            (k < length (nth j (nth i (L self) []) []))%nat /\
            (l < length (nth k (nth j (nth i (L self) []) []) []))%nat).
  { intros i j k l Hi Hj Hk Hl.
    destruct (Hterms i j k l Hi Hj Hk Hl) as (_ & _ & _ & (x & Hx)).
    unfold term_L in Hx. apply bindR_ok in Hx as (c & Hc & _).
    apply item4_ok_lt in Hc. exact Hc. }
  split; [|apply le_of_pointwise; intros i Hi; apply (Hh i Hi)].
  split; [apply le_of_pointwise; intros i Hi; apply (Hh i Hi)|].
  split.
  { split; [apply le_of_pointwise; intros i Hi; apply (HJ i i Hi Hi)|].
    intros i Hi. apply le_of_pointwise; intros j Hj. apply (HJ i j Hi Hj). }
  split.
  { split; [apply le_of_pointwise; intros i Hi; apply (HK i i i Hi Hi Hi)|].
    intros i Hi.
    split; [apply le_of_pointwise; intros j Hj; apply (HK i j j Hi Hj Hj)|].
    intros j Hj. apply le_of_pointwise; intros k Hk.
    apply (HK i j k Hi Hj Hk). }
  split; [apply le_of_pointwise; intros i Hi; apply (HL i i i i Hi Hi Hi Hi)|].
  intros i Hi.
  split; [apply le_of_pointwise; intros j Hj;
          apply (HL i j j j Hi Hj Hj Hj)|].
  intros j Hj.
  split; [apply le_of_pointwise; intros k Hk;
          apply (HL i j k k Hi Hj Hk Hk)|].
  intros k Hk. apply le_of_pointwise; intros l Hl.
  apply (HL i j k l Hi Hj Hk Hl).
Qed.

Lemma energy_covers_ok (self : GeneralizedIsingModel) :
  covers self -> exists e, energy self = OK e.
Proof.
  intros [Hten Hlen].
  rewrite <- energy_leading_block.
  eexists. apply energy_eval.
  - apply leading_block_consistent. exact Hten.
  - cbn [N spins leading_block]. apply length_firstn_covers. exact Hlen.
Qed.

(** X2. [energy] returns a value exactly when every tensor and the spin vector
    reach extent [N] on every axis, whatever the values stored (in particular
    always when N = 0); otherwise it raises [IndexError], its only
    exception. *)
Theorem energy_returns_iff_covers (self : GeneralizedIsingModel) :
  ((exists e, energy self = OK e) <-> covers self) /\
  (~ covers self -> energy self = Raise IndexError).
Proof.
  split.
  - split.
    + intros [e He]. exact (energy_ok_covers self e He).
    + apply energy_covers_ok.
  - intro Hn. destruct (energy self) as [e|e] eqn:He.
    + exfalso. apply Hn. exact (energy_ok_covers self e He).
    + rewrite (energy_raise_IndexError self e He). reflexivity.
Qed.

(** ** Zero couplings *)

Lemma nth_Forall {A : Type} (P : A -> Prop) (a : list A) (i : nat) (d : A) :
  Forall P a -> P d -> P (nth i a d).
Proof.
  intros Ha Hd. destruct (Nat.lt_ge_cases i (length a)) as [Hi|Hi].
  - apply Forall_nth_in; assumption.
  - rewrite nth_overflow by exact Hi. exact Hd.
Qed.

Lemma at1_zero (a : list R) (i : nat) : all_zero a -> at1 a i = 0.
Proof.
  intro Ha. unfold at1.
  apply (nth_Forall (fun x => x = 0)); [exact Ha | reflexivity].
Qed.

Lemma at2_zero (a : list (list R)) (i j : nat) :
  Forall all_zero a -> at2 a i j = 0.
Proof.
  intro Ha. unfold at2. apply at1_zero.
  apply nth_Forall; [exact Ha | apply Forall_nil].
Qed.

Lemma at3_zero (a : list (list (list R))) (i j k : nat) :
  Forall (Forall all_zero) a -> at3 a i j k = 0.
Proof.
  intro Ha. unfold at3. apply at2_zero.
  apply nth_Forall; [exact Ha | apply Forall_nil].
Qed.

Lemma at4_zero (a : list (list (list (list R)))) (i j k l : nat) :
  Forall (Forall (Forall all_zero)) a -> at4 a i j k l = 0.
Proof.
  intro Ha. unfold at4. apply at3_zero.
  apply nth_Forall; [exact Ha | apply Forall_nil].
Qed.

Lemma big_sum_all_zero (n : nat) (f : nat -> R) :
  (forall i, (i < n)%nat -> f i = 0) -> big_sum n f = 0.
Proof.
  intro Hf. rewrite (big_sum_ext n f (fun _ => 0)) by exact Hf.
  apply big_sum_zero.
Qed.

(** X3. With h, J, K and L identically zero, [energy] returns [E0] for every
    content of the spin vector, provided the arrays reach extent [N]. *)
Theorem energy_zero_couplings (self : GeneralizedIsingModel) :
  zero_tensors self -> covers self -> energy self = OK (E0 self).
Proof.
  intros (Zh & ZJ & ZK & ZL) [Hten Hlen].
  rewrite <- energy_leading_block.
  rewrite (energy_eval (leading_block self)).
  - f_equal. unfold energy_value.
    cbn [E0 N leading_block].
    rewrite !big_sum_all_zero; [ring| | | |].
    + intros i Hi. apply big_sum_all_zero. intros j Hj.
      apply big_sum_all_zero. intros k Hk.
      apply big_sum_all_zero. intros l Hl.
      unfold val_L. cbn [L leading_block].
      rewrite at4_trunc, at4_zero by assumption. ring.
    + intros i Hi. apply big_sum_all_zero. intros j Hj.
      apply big_sum_all_zero. intros k Hk.
      unfold val_K. cbn [K leading_block].
      rewrite at3_trunc, at3_zero by assumption. ring.
    + intros i Hi. apply big_sum_all_zero. intros j Hj.
      unfold val_J. cbn [J leading_block].
      rewrite at2_trunc, at2_zero by assumption. ring.
    + intros i Hi. unfold val_h. cbn [h leading_block].
      rewrite at1_trunc, at1_zero by assumption. ring.
  - apply leading_block_consistent. exact Hten.
  - cbn [N spins leading_block]. apply length_firstn_covers. exact Hlen.
Qed.

(** ** Flipping back *)

Lemma flip_site_involutive (s : list Z) (k : nat) :
  (k < length s)%nat -> flip_site (flip_site s k) k = s.
Proof.
  intro Hk. unfold flip_site.
  rewrite update_nth_same by exact Hk.
  rewrite update_update, Z.opp_involutive.
  apply update_id.
Qed.

(** X5. Once the flip of site i is committed, [energy_diff(i)] returns the
    opposite of what it returned before: proposing the same site again
    proposes the way back. *)
Theorem energy_diff_after_flip (self : GeneralizedIsingModel) (i : Z) :
  well_formed self -> (0 <= i < Z.of_nat (N self))%Z ->
  exists d,
    fst (energy_diff i self) = OK d /\
    fst (energy_diff i
           (with_spins self (flip_site (spins self) (Z.to_nat i))))
    = OK (- d).
Proof.
  intros Hwf Hi.
  pose proof Hwf as [Hcons Hconf].
  pose proof Hconf as [Hlen _].
  destruct (energy_diff_in_range self i Hwf Hi) as (e & e' & He & He' & Hd).
  assert (Hwf' : well_formed
            (with_spins self (flip_site (spins self) (Z.to_nat i)))).
  { apply well_formed_with_spins; [exact Hcons|].
    apply flip_site_configuration. exact Hconf. }
  destruct (energy_diff_in_range _ i Hwf' Hi) as (f & f' & Hf & Hf' & Hd').
  cbn [spins with_spins] in Hf'.
  rewrite flip_site_involutive in Hf' by lia.
  change (with_spins (with_spins self (flip_site (spins self) (Z.to_nat i)))
            (spins self))
    with (with_spins self (spins self)) in Hf'.
  rewrite with_spins_id in Hf'.
  rewrite He' in Hf. injection Hf as <-.
  rewrite He in Hf'. injection Hf' as <-.
  exists (e' - e). rewrite Hd, Hd'. simpl. split; [reflexivity|].
  f_equal. ring.
Qed.

(** ** The scan: what it depends on, and how it fails *)

Lemma space_first (n : nat) :
  exists rows, space n = repeat (-1)%Z n :: rows.
Proof.
  rewrite space_rows.
  destruct (2 ^ n)%nat as [|p] eqn:Hp.
  - pose proof (Nat.pow_nonzero 2 n). lia.
  - unfold range. cbn [seq map]. eexists. f_equal.
    unfold space_row. rewrite (map_constant _ (-1)%Z).
    + unfold range. rewrite length_seq. reflexivity.
    + intros b _. unfold spin_of_bit. cbn [Z.of_nat].
      rewrite Z.testbit_0_l. reflexivity.
Qed.

(** X6. The scan does not depend on the spins the object holds when it starts:
    its value, its exception and the object it leaves are the same. *)
Theorem exhaustive_search_forgets_spins (self : GeneralizedIsingModel)
  (s : list Z) :
  exhaustive_search (with_spins self s) = exhaustive_search self.
Proof.
  rewrite !exhaustive_search_rows. cbn [num_spins with_spins].
  destruct (space_nonempty (num_spins self)) as (r & rows & ->).
  rewrite !for_each_M_cons, !search_step_run.
  reflexivity.
Qed.

(** X7. When a tensor falls short of extent N, the scan raises [IndexError] on
    the very first row and leaves that row, all spins -1, in the object: the
    spins held before are lost. *)
Theorem exhaustive_search_short_tensors (self : GeneralizedIsingModel) :
  num_spins self = N self -> ~ covers_tensors self ->
  exhaustive_search self
  = (Raise IndexError, with_spins self (repeat (-1)%Z (N self))).
Proof.
  intros Hn Hshort.
  rewrite exhaustive_search_rows, Hn.
  destruct (space_first (N self)) as (rows & ->).
  rewrite for_each_M_cons, search_step_run.
  destruct (energy (with_spins self (repeat (-1)%Z (N self)))) as [e|e] eqn:He.
  - exfalso. apply Hshort.
    apply energy_ok_covers in He. apply He.
  - rewrite (energy_raise_IndexError _ _ He). reflexivity.
Qed.

(** ** The reader *)

Lemma scan_sites_from (sites : str) (i k : nat) (acc : list nat) :
  fold_left
    (fun (acc : nat * list nat) (ix : nat * ascii) =>
       if Ascii.eqb (snd ix) "z"%char
       then (S (fst acc), snd acc ++ [fst ix])
       else acc)
    (combine (seq i (length sites)) sites) (k, acc)
  = ((k + length (z_positions_from i sites))%nat,
     acc ++ z_positions_from i sites).
Proof.
  revert i k acc. induction sites as [|x rest IH]; intros i k acc.
  - simpl. rewrite Nat.add_0_r, app_nil_r. reflexivity.
  - cbn [length seq combine fold_left z_positions_from snd fst].
    destruct (Ascii.eqb x "z"%char).
    + rewrite IH. cbn [length]. rewrite <- app_assoc. cbn [app].
      f_equal. lia.
    + apply IH.
Qed.

(** The loop over [enumerate(sites)] collects the positions of the ['z']
    characters in increasing order and counts them. *)
Lemma scan_sites_spec (sites : str) :
  scan_sites sites = (length (z_positions sites), z_positions sites).
Proof. unfold scan_sites, z_positions. apply scan_sites_from. Qed.

Lemma z_positions_from_bounds (i : nat) (sites : str) :
  Forall (fun p => (i <= p < i + length sites)%nat)
         (z_positions_from i sites).
Proof.
  revert i. induction sites as [|x rest IH]; intro i; simpl.
  - constructor.
  - assert (Hrest : Forall (fun p => (i <= p < i + S (length rest))%nat)
                      (z_positions_from (S i) rest)).
    { eapply Forall_impl; [|apply IH]. simpl. intros p Hp. lia. }
    destruct (Ascii.eqb x "z"%char); [constructor; [lia|]|]; exact Hrest.
Qed.

Lemma z_positions_from_sorted (i : nat) (sites : str) :
  StronglySorted lt (z_positions_from i sites).
Proof.
  revert i. induction sites as [|x rest IH]; intro i; simpl.
  - constructor.
  - destruct (Ascii.eqb x "z"%char); [|apply IH].
    constructor; [apply IH|].
    eapply Forall_impl; [|apply z_positions_from_bounds].
    simpl. intros p Hp. lia.
Qed.

Lemma z_positions_from_count (n i : nat) (sites : str) :
  Forall (fun p => (p < n)%nat) (z_positions_from i sites) ->
  (length (z_positions_from i sites) <= n - i)%nat.
Proof.
  revert i. induction sites as [|x rest IH]; intros i H; simpl in *.
  - lia.
  - destruct (Ascii.eqb x "z"%char).
    + inversion H as [|? ? Hi Hrest]; subst.
      specialize (IH (S i) Hrest). simpl. lia.
    + specialize (IH (S i) H). lia.
Qed.

Lemma within_repeat (n : nat) (idx : list nat) :
  Forall (fun p => (p < n)%nat) idx ->
  within idx (repeat n (length idx)) = true.
Proof.
  induction idx as [|i idx IH]; intro H; simpl.
  - reflexivity.
  - inversion H as [|? ? Hi Hrest]; subst.
    apply Nat.ltb_lt in Hi. rewrite Hi. simpl. apply IH. exact Hrest.
Qed.

Lemma within_repeat_inv (n : nat) (idx : list nat) :
  within idx (repeat n (length idx)) = true ->
  Forall (fun p => (p < n)%nat) idx.
Proof.
  induction idx as [|i idx IH]; simpl; intro H.
  - constructor.
  - apply andb_prop in H as [Hi Hrest].
    constructor; [apply Nat.ltb_lt; exact Hi | apply IH; exact Hrest].
Qed.

Section Reader.

Variable float : str -> result R.

Lemma entry_after_cons (line : list str) (lines : list (list str))
  (f : list nat -> R) :
  entry_after float (line :: lines) f
  = entry_after float lines (entry_after float [line] f).
Proof. reflexivity. Qed.

Lemma entry_after_line (sites val : str) (v : R) (f : list nat -> R)
  (idx : list nat) :
  float val = OK v ->
  entry_after float [[sites; val]] f idx
  = if list_eq_dec Nat.eq_dec idx (z_positions sites) then v else f idx.
Proof. intro Hv. unfold entry_after. simpl. rewrite Hv. reflexivity. Qed.

(** An acceptable line is read without raising and keeps the arrays in
    shape, the entry of its ['z'] positions taking its value. *)
Lemma read_line_ok (n : nat) (line : list str) (terms : list ndarray)
  (f : list nat -> R) :
  terms_inv n terms f -> acceptable_line float n line ->
  exists terms',
    read_line float line terms = OK terms' /\
    terms_inv n terms' (entry_after float [line] f).
Proof.
  intros (Hlen & Hshape & Hdata) (sites & val & v & -> & Hv & Hz).
  assert (Hk : (length (z_positions sites) <= n)%nat).
  { pose proof (z_positions_from_count n 0 sites Hz) as H.
    unfold z_positions. lia. }
  set (zs := z_positions sites) in *.
  unfold read_line. rewrite scan_sites_spec. fold zs. cbn [fst snd].
  rewrite Hv. cbn [bindR].
  rewrite (item_nth _ _ (np_zeros [])) by lia. cbn [bindR].
  unfold nd_setitem. rewrite (Hshape _ Hk), within_repeat by exact Hz.
  cbn [bindR]. eexists. split; [reflexivity|].
  split; [|split].
  - rewrite update_length. exact Hlen.
  - intros r Hr. destruct (Nat.eq_dec r (length zs)) as [->|Hne].
    + rewrite update_nth_same by lia. reflexivity.
    + rewrite update_nth_other by exact Hne. apply Hshape. exact Hr.
  - intros idx Hidx. rewrite (entry_after_line _ _ _ _ _ Hv). fold zs.
    destruct (Nat.eq_dec (length idx) (length zs)) as [Heq|Hne].
    + rewrite Heq, update_nth_same by lia. cbn [data].
      rewrite <- Heq, firstn_all.
      destruct (list_eq_dec Nat.eq_dec idx zs); [reflexivity|].
      rewrite <- Hdata by exact Hidx. rewrite Heq. reflexivity.
    + rewrite update_nth_other by exact Hne.
      destruct (list_eq_dec Nat.eq_dec idx zs) as [->|_];
        [contradiction Hne; reflexivity|].
      apply Hdata. exact Hidx.
Qed.

(** A line that is read without raising is acceptable. *)
Lemma read_line_inv (n : nat) (line : list str) (terms terms' : list ndarray)
  (f : list nat -> R) :
  terms_inv n terms f -> read_line float line terms = OK terms' ->
  acceptable_line float n line.
Proof.
  intros (Hlen & Hshape & _) Hrun.
  destruct line as [|sites [|val [|x rest]]]; try discriminate Hrun.
  unfold read_line in Hrun. rewrite scan_sites_spec in Hrun.
  cbn [fst snd] in Hrun.
  apply bindR_ok in Hrun as (v & Hv & Hrun).
  apply bindR_ok in Hrun as (t & Ht & Hrun).
  apply bindR_ok in Hrun as (t' & Hset & _).
  apply (item_ok_lt _ _ _ (np_zeros [])) in Ht as [Hk <-].
  unfold nd_setitem in Hset.
  rewrite Hshape in Hset by lia.
  destruct (within (z_positions sites)
              (repeat n (length (z_positions sites)))) eqn:Hw;
    [|discriminate].
  exists sites, val, v. repeat split; try assumption.
  apply within_repeat_inv. exact Hw.
Qed.

Lemma read_loop_ok (n : nat) (lines : list (list str)) :
  forall (terms : list ndarray) (f : list nat -> R),
    terms_inv n terms f -> Forall (acceptable_line float n) lines ->
    exists terms',
      for_each lines (read_line float) terms = OK terms' /\
      terms_inv n terms' (entry_after float lines f).
Proof.
  induction lines as [|line lines IH]; intros terms f Hinv Hacc.
  - exists terms. split; [reflexivity | exact Hinv].
  - inversion Hacc as [|? ? Hline Hrest]; subst.
    destruct (read_line_ok n line terms f Hinv Hline) as (t1 & Hrun & Hinv1).
    destruct (IH t1 _ Hinv1 Hrest) as (t2 & Hrun2 & Hinv2).
    exists t2. split; [|rewrite entry_after_cons; exact Hinv2].
    cbn [for_each]. rewrite Hrun. exact Hrun2.
Qed.

Lemma read_loop_inv (n : nat) (lines : list (list str)) :
  forall (terms terms' : list ndarray) (f : list nat -> R),
    terms_inv n terms f ->
    for_each lines (read_line float) terms = OK terms' ->
    Forall (acceptable_line float n) lines.
Proof.
  induction lines as [|line lines IH]; intros terms terms' f Hinv Hrun.
  - constructor.
  - cbn [for_each] in Hrun. apply bindR_ok in Hrun as (t1 & Hline & Hrest).
    pose proof (read_line_inv n line terms t1 f Hinv Hline) as Hacc.
    destruct (read_line_ok n line terms f Hinv Hacc) as (t1' & Hrun1 & Hinv1).
    rewrite Hline in Hrun1. injection Hrun1 as <-.
    constructor; [exact Hacc | exact (IH t1 terms' _ Hinv1 Hrest)].
Qed.

End Reader.

Lemma nth_map_range {A : Type} (f : nat -> A) (n i : nat) (d : A) :
  (i < n)%nat -> nth i (map f (range n)) d = f i.
Proof.
  intro Hi.
  rewrite (nth_indep _ d (f 0%nat))
    by (rewrite length_map; unfold range; rewrite length_seq; exact Hi).
  rewrite (map_nth f). unfold range. rewrite seq_nth by exact Hi.
  reflexivity.
Qed.

Lemma length_map_range {A : Type} (f : nat -> A) (n : nat) :
  length (map f (range n)) = n.
Proof. rewrite length_map. unfold range. apply length_seq. Qed.

Lemma zeros_inv (n : nat) :
  terms_inv n (map (fun i => np_zeros (repeat n i)) (range (n + 1)))
            (fun _ => 0).
Proof.
  split; [apply length_map_range|]. split.
  - intros r Hr. rewrite nth_map_range by lia. reflexivity.
  - intros idx Hidx. rewrite nth_map_range by lia. reflexivity.
Qed.

Section ReaderResults.

Variable float : str -> result R.

Lemma read_unfold (sites0 : str) (rest0 : list str) (rest : list (list str)) :
  let c := (sites0 :: rest0) :: rest in
  num_sites_of c = length sites0 /\
  read_generalized_ising_hamiltonian float c
  = for_each c (read_line float)
      (map (fun i => np_zeros (repeat (length sites0) i))
           (range (length sites0 + 1))).
Proof. split; reflexivity. Qed.

Lemma read_ok_nonempty (c : list (list str)) (terms : list ndarray) :
  read_generalized_ising_hamiltonian float c = OK terms ->
  exists sites0 rest0 rest, c = (sites0 :: rest0) :: rest.
Proof.
  destruct c as [|[|sites0 rest0] rest]; try discriminate. eauto.
Qed.

Lemma read_ok_inv (c : list (list str)) (terms : list ndarray) :
  read_generalized_ising_hamiltonian float c = OK terms ->
  Forall (acceptable_line float (num_sites_of c)) c /\
  terms_inv (num_sites_of c) terms (entry_after float c (fun _ => 0)).
Proof.
  intro Hrun.
  destruct (read_ok_nonempty c terms Hrun) as (sites0 & rest0 & rest & ->).
  destruct (read_unfold sites0 rest0 rest) as [Hn Hread].
  cbv zeta in Hn, Hread. rewrite Hread in Hrun. rewrite Hn.
  pose proof (zeros_inv (length sites0)) as Hinv0.
  pose proof (read_loop_inv float _ _ _ _ _ Hinv0 Hrun) as Hacc.
  split; [exact Hacc|].
  destruct (read_loop_ok float _ _ _ _ Hinv0 Hacc) as (t & Hrun' & Hinv).
  rewrite Hrun in Hrun'. injection Hrun' as <-. exact Hinv.
Qed.

(** X11. The reader returns only on tables that have a first line with a
    first token and whose every line is a pair of tokens, the second one a
    valid float, the first one with all its ['z'] at positions below the
    length of the first token of the first line: on any other table it
    raises; an empty table and a table whose first line is blank raise
    [IndexError]. *)
Theorem read_returns_only_if (c : list (list str)) :
  ((exists terms, read_generalized_ising_hamiltonian float c = OK terms) ->
   (exists sites0 rest0 rest, c = (sites0 :: rest0) :: rest) /\
   Forall (acceptable_line float (num_sites_of c)) c) /\
  (~ ((exists sites0 rest0 rest, c = (sites0 :: rest0) :: rest) /\
      Forall (acceptable_line float (num_sites_of c)) c) ->
   exists e, read_generalized_ising_hamiltonian float c = Raise e) /\
  read_generalized_ising_hamiltonian float [] = Raise IndexError /\
  (forall rest,
     read_generalized_ising_hamiltonian float ([] :: rest)
     = Raise IndexError).
Proof.
  assert (Honly :
    forall terms, read_generalized_ising_hamiltonian float c = OK terms ->
      (exists sites0 rest0 rest, c = (sites0 :: rest0) :: rest) /\
      Forall (acceptable_line float (num_sites_of c)) c).
  { intros terms Hrun. split.
    - exact (read_ok_nonempty c terms Hrun).
    - apply (read_ok_inv c terms Hrun). }
  split; [|split; [|split; [reflexivity | intro rest; reflexivity]]].
  - intros [terms Hrun]. exact (Honly terms Hrun).
  - intro Hnot.
    destruct (read_generalized_ising_hamiltonian float c) as [terms|e]
      eqn:Hrun.
    + contradiction Hnot. exact (Honly terms eq_refl).
    + exists e. reflexivity.
Qed.

(** X12. When the reader returns, it returns one array per rank from 0 to
    num_sites, the array of rank r having extent num_sites on each of its r
    axes. *)
Theorem read_shapes (c : list (list str)) (terms : list ndarray) :
  read_generalized_ising_hamiltonian float c = OK terms ->
  length terms = (num_sites_of c + 1)%nat /\
  forall r, (r <= num_sites_of c)%nat ->
    shape (nth r terms (np_zeros [])) = repeat (num_sites_of c) r.
Proof.
  intro Hrun. destruct (read_ok_inv c terms Hrun) as (_ & Hlen & Hshape & _).
  split; assumption.
Qed.

(** X13. When the reader returns, the entry of an index tuple, in the array whose
    rank is the length of the tuple, is the value of the last line whose
    ['z'] positions are exactly this tuple, and 0 when there is no such
    line: characters other than ['z'] play no role and a later line replaces
    an earlier one, nothing is added up. *)
Theorem read_entries (c : list (list str)) (terms : list ndarray)
  (idx : list nat) :
  read_generalized_ising_hamiltonian float c = OK terms ->
  (length idx <= num_sites_of c)%nat ->
  data (nth (length idx) terms (np_zeros [])) idx
  = entry_after float c (fun _ => 0) idx.
Proof.
  intros Hrun Hidx.
  destruct (read_ok_inv c terms Hrun) as (_ & _ & _ & Hdata).
  apply Hdata. exact Hidx.
Qed.

Lemma entry_after_support (lines : list (list str)) :
  forall (f : list nat -> R) (idx : list nat),
    entry_after float lines f idx = f idx \/
    exists sites, idx = z_positions sites.
Proof.
  induction lines as [|line lines IH]; intros f idx.
  - left. reflexivity.
  - rewrite entry_after_cons.
    destruct (IH (entry_after float [line] f) idx) as [Heq|Hex];
      [|right; exact Hex].
    rewrite Heq. unfold entry_after. cbn [fold_left].
    destruct line as [|sites [|val [|x rest]]]; try (left; reflexivity).
    destruct (float val) as [v|e]; [|left; reflexivity].
    destruct (list_eq_dec Nat.eq_dec idx (z_positions sites)) as [->|_].
    + right. exists sites. reflexivity.
    + left. reflexivity.
Qed.

(** X14. The reader only ever writes at strictly increasing index tuples: every
    entry whose tuple repeats an index or is not in increasing order, such
    as J[i,i] or J[j,i] with i < j, is left at 0. *)
Theorem read_support (c : list (list str)) (terms : list ndarray)
  (idx : list nat) :
  read_generalized_ising_hamiltonian float c = OK terms ->
  (length idx <= num_sites_of c)%nat ->
  ~ StronglySorted lt idx ->
  data (nth (length idx) terms (np_zeros [])) idx = 0.
Proof.
  intros Hrun Hidx Hns.
  destruct (read_ok_inv c terms Hrun) as (_ & _ & _ & Hdata).
  rewrite Hdata by exact Hidx.
  destruct (entry_after_support c (fun _ => 0) idx) as [Heq|(sites & ->)].
  - exact Heq.
  - contradiction Hns. apply z_positions_from_sorted.
Qed.

End ReaderResults.

(** ** From the table to the model object *)

Lemma as_vector_shape (n : nat) (a : ndarray) :
  shape a = repeat n 1 -> shape1 n (as_vector a).
Proof.
  intro Hs. unfold as_vector, shape1. rewrite Hs. apply length_map_range.
Qed.

Lemma as_matrix_shape (n : nat) (a : ndarray) :
  shape a = repeat n 2 -> shape2 n (as_matrix a).
Proof.
  intro Hs. unfold as_matrix, shape2. rewrite Hs. cbn [repeat nth].
  split; [apply length_map_range|].
  apply Forall_forall. intros r Hr. apply in_map_iff in Hr as (i & <- & _).
  apply length_map_range.
Qed.

Lemma as_rank3_shape (n : nat) (a : ndarray) :
  shape a = repeat n 3 -> shape3 n (as_rank3 a).
Proof.
  intro Hs. unfold as_rank3, shape3. rewrite Hs. cbn [repeat nth].
  split; [apply length_map_range|].
  apply Forall_forall. intros m Hm. apply in_map_iff in Hm as (i & <- & _).
  split; [apply length_map_range|].
  apply Forall_forall. intros r Hr. apply in_map_iff in Hr as (j & <- & _).
  apply length_map_range.
Qed.

Lemma as_rank4_shape (n : nat) (a : ndarray) :
  shape a = repeat n 4 -> shape4 n (as_rank4 a).
Proof.
  intro Hs. unfold as_rank4, shape4. rewrite Hs. cbn [repeat nth].
  split; [apply length_map_range|].
  apply Forall_forall. intros c Hc. apply in_map_iff in Hc as (i & <- & _).
  split; [apply length_map_range|].
  apply Forall_forall. intros m Hm. apply in_map_iff in Hm as (j & <- & _).
  split; [apply length_map_range|].
  apply Forall_forall. intros r Hr. apply in_map_iff in Hr as (k & <- & _).
  apply length_map_range.
Qed.

Lemma at1_as_vector (n : nat) (a : ndarray) (i : nat) :
  shape a = repeat n 1 -> (i < n)%nat -> at1 (as_vector a) i = data a [i].
Proof.
  intros Hs Hi. unfold at1, as_vector. rewrite Hs. cbn [repeat nth].
  exact (nth_map_range (fun i => data a [i]) n i 0 Hi).
Qed.

Lemma at2_as_matrix (n : nat) (a : ndarray) (i j : nat) :
  shape a = repeat n 2 -> (i < n)%nat -> (j < n)%nat ->
  at2 (as_matrix a) i j = data a [i; j].
Proof.
  intros Hs Hi Hj. unfold at2, at1, as_matrix. rewrite Hs. cbn [repeat nth].
  rewrite (nth_map_range
             (fun i => map (fun j => data a [i; j]) (range n)) n i [] Hi).
  exact (nth_map_range (fun j => data a [i; j]) n j 0 Hj).
Qed.

Lemma at3_as_rank3 (n : nat) (a : ndarray) (i j k : nat) :
  shape a = repeat n 3 -> (i < n)%nat -> (j < n)%nat -> (k < n)%nat ->
  at3 (as_rank3 a) i j k = data a [i; j; k].
Proof.
  intros Hs Hi Hj Hk. unfold at3, at2, at1, as_rank3.
  rewrite Hs. cbn [repeat nth].
  rewrite (nth_map_range
             (fun i => map (fun j => map (fun k => data a [i; j; k])
                                         (range n)) (range n)) n i [] Hi).
  rewrite (nth_map_range
             (fun j => map (fun k => data a [i; j; k]) (range n)) n j [] Hj).
  exact (nth_map_range (fun k => data a [i; j; k]) n k 0 Hk).
Qed.

Lemma at4_as_rank4 (n : nat) (a : ndarray) (i j k l : nat) :
  shape a = repeat n 4 -> (i < n)%nat -> (j < n)%nat -> (k < n)%nat ->
  (l < n)%nat ->
  at4 (as_rank4 a) i j k l = data a [i; j; k; l].
Proof.
  intros Hs Hi Hj Hk Hl. unfold at4, at3, at2, at1, as_rank4.
  rewrite Hs. cbn [repeat nth].
  rewrite (nth_map_range
             (fun i => map (fun j => map (fun k =>
                map (fun l => data a [i; j; k; l]) (range n))
                (range n)) (range n)) n i [] Hi).
  rewrite (nth_map_range
             (fun j => map (fun k =>
                map (fun l => data a [i; j; k; l]) (range n))
                (range n)) n j [] Hj).
  rewrite (nth_map_range
             (fun k => map (fun l => data a [i; j; k; l]) (range n))
             n k [] Hk).
  exact (nth_map_range (fun l => data a [i; j; k; l]) n l 0 Hl).
Qed.

Section Loading.

Variable float : str -> result R.

(** What a successful load gives: the table has four sites, the object is
    well formed and its coefficients are the entries of the table. *)
Lemma load_model_ok (c : list (list str)) (coins : nat -> bool)
  (self : GeneralizedIsingModel) :
  load_model float c coins = OK self ->
  let entry := entry_after float c (fun _ => 0) in
  num_sites_of c = 4%nat /\ N self = 4%nat /\ well_formed self /\
  E0 self = entry [] /\
  (forall i, (i < 4)%nat -> at1 (h self) i = entry [i]) /\
  (forall i j, (i < 4)%nat -> (j < 4)%nat ->
     at2 (J self) i j = entry [i; j]) /\
  (forall i j k, (i < 4)%nat -> (j < 4)%nat -> (k < 4)%nat ->
     at3 (K self) i j k = entry [i; j; k]) /\
  (forall i j k l, (i < 4)%nat -> (j < 4)%nat -> (k < 4)%nat ->
     (l < 4)%nat -> at4 (L self) i j k l = entry [i; j; k; l]).
Proof.
  intros Hload entry. unfold load_model in Hload.
  apply bindR_ok in Hload as (terms & Hread & Hinit).
  destruct (read_ok_inv float c terms Hread) as (_ & Hlen & Hshape & Hdata).
  destruct terms as [|t0 [|t1 [|t2 [|t3 [|t4 [|t5 rest]]]]]];
    try discriminate Hinit.
  cbn [length] in Hlen.
  assert (Hn : num_sites_of c = 4%nat) by lia.
  rewrite Hn in Hshape, Hdata.
  pose proof (Hshape 1%nat ltac:(lia)) as S1.
  pose proof (Hshape 2%nat ltac:(lia)) as S2.
  pose proof (Hshape 3%nat ltac:(lia)) as S3.
  pose proof (Hshape 4%nat ltac:(lia)) as S4.
  cbn [nth] in S1, S2, S3, S4.
  unfold init in Hinit. cbn [Z.ltb Z.compare] in Hinit.
  injection Hinit as <-.
  cbn [E0 h J K L N num_spins spins].
  split; [exact Hn|]. split; [reflexivity|]. split.
  { split.
    - unfold consistent. cbn [E0 h J K L N num_spins spins Z.to_nat].
      change (Pos.to_nat 4) with 4%nat.
      split; [apply as_vector_shape; exact S1|].
      split; [apply as_matrix_shape; exact S2|].
      split; [apply as_rank3_shape; exact S3|].
      split; [apply as_rank4_shape; exact S4 | reflexivity].
    - exact (init_spins_configuration 4 coins). }
  split; [exact (Hdata [] ltac:(simpl; lia))|].
  split.
  { intros i Hi. rewrite (at1_as_vector 4) by assumption.
    exact (Hdata [i] ltac:(simpl; lia)). }
  split.
  { intros i j Hi Hj. rewrite (at2_as_matrix 4) by assumption.
    exact (Hdata [i; j] ltac:(simpl; lia)). }
  split.
  { intros i j k Hi Hj Hk. rewrite (at3_as_rank3 4) by assumption.
    exact (Hdata [i; j; k] ltac:(simpl; lia)). }
  intros i j k l Hi Hj Hk Hl. rewrite (at4_as_rank4 4) by assumption.
  exact (Hdata [i; j; k; l] ltac:(simpl; lia)).
Qed.

Lemma entry_unsorted (c : list (list str)) (idx : list nat) :
  ~ StronglySorted lt idx -> entry_after float c (fun _ => 0) idx = 0.
Proof.
  intro Hns.
  destruct (entry_after_support float c (fun _ => 0) idx)
    as [Heq|(sites & ->)]; [exact Heq|].
  contradiction Hns. apply z_positions_from_sorted.
Qed.

(** X15. A table is loaded into a model object only if its first token has four
    characters; the object is then well formed, with N = 4, and each of its
    coefficients is the entry the table gives to the index tuple. *)
Theorem load_model_well_formed (c : list (list str)) (coins : nat -> bool)
  (self : GeneralizedIsingModel) :
  load_model float c coins = OK self ->
  num_sites_of c = 4%nat /\ N self = 4%nat /\ well_formed self /\
  E0 self = entry_after float c (fun _ => 0) [] /\
  (forall i, (i < 4)%nat ->
     at1 (h self) i = entry_after float c (fun _ => 0) [i]) /\
  (forall i j, (i < 4)%nat -> (j < 4)%nat ->
     at2 (J self) i j = entry_after float c (fun _ => 0) [i; j]) /\
  (forall i j k, (i < 4)%nat -> (j < 4)%nat -> (k < 4)%nat ->
     at3 (K self) i j k = entry_after float c (fun _ => 0) [i; j; k]) /\
  (forall i j k l, (i < 4)%nat -> (j < 4)%nat -> (k < 4)%nat ->
     (l < 4)%nat ->
     at4 (L self) i j k l = entry_after float c (fun _ => 0) [i; j; k; l]).
Proof. intro Hload. exact (load_model_ok c coins self Hload). Qed.

(** X16. The unpacking into E0, h, J, K, L raises [ValueError] on every table
    the reader accepts whose first token does not have four characters. *)
Theorem load_model_wrong_size (c : list (list str)) (coins : nat -> bool)
  (terms : list ndarray) :
  read_generalized_ising_hamiltonian float c = OK terms ->
  num_sites_of c <> 4%nat ->
  load_model float c coins = Raise ValueError.
Proof.
  intros Hread Hn. unfold load_model. rewrite Hread. cbn [bindR].
  destruct (read_ok_inv float c terms Hread) as (_ & Hlen & _).
  destruct terms as [|t0 [|t1 [|t2 [|t3 [|t4 [|t5 rest]]]]]];
    try reflexivity.
  cbn [length] in Hlen. lia.
Qed.

End Loading.

Lemma sorted2 (i j : nat) : StronglySorted lt [i; j] <-> (i < j)%nat.
Proof.
  split.
  - intro H. inversion H as [|? ? _ Hf]; subst.
    inversion Hf; subst. assumption.
  - intro H. repeat constructor. exact H.
Qed.

Lemma sorted3 (i j k : nat) :
  StronglySorted lt [i; j; k] <-> (i < j)%nat /\ (j < k)%nat.
Proof.
  split.
  - intro H. inversion H as [|? ? Hs Hf]; subst.
    apply sorted2 in Hs. inversion Hf; subst. auto.
  - intros [H1 H2]. repeat constructor; lia.
Qed.

Lemma sorted4 (i j k l : nat) :
  StronglySorted lt [i; j; k; l] <->
  (i < j)%nat /\ (j < k)%nat /\ (k < l)%nat.
Proof.
  split.
  - intro H. inversion H as [|? ? Hs Hf]; subst.
    apply sorted3 in Hs. inversion Hf; subst. tauto.
  - intros (H1 & H2 & H3). repeat constructor; lia.
Qed.

Lemma at1_out (n : nat) (a : list R) (i : nat) :
  shape1 n a -> (n <= i)%nat -> at1 a i = 0.
Proof.
  unfold shape1, at1. intros Ha Hi. apply nth_overflow. lia.
Qed.

Lemma at1_nil (i : nat) : at1 [] i = 0.
Proof. unfold at1. destruct i; reflexivity. Qed.

Lemma at2_out (n : nat) (a : list (list R)) (i j : nat) :
  shape2 n a -> (n <= i \/ n <= j)%nat -> at2 a i j = 0.
Proof.
  intros [Hlen Hrows] Hij. unfold at2.
  destruct (Nat.lt_ge_cases i n) as [Hi|Hi].
  - apply (at1_out n); [apply Forall_nth_in; [exact Hrows | lia] | lia].
  - rewrite (nth_overflow a) by lia. apply at1_nil.
Qed.

Lemma at2_nil (i j : nat) : at2 [] i j = 0.
Proof. unfold at2. destruct i; apply at1_nil. Qed.

Lemma at3_out (n : nat) (a : list (list (list R))) (i j k : nat) :
  shape3 n a -> (n <= i \/ n <= j \/ n <= k)%nat -> at3 a i j k = 0.
Proof.
  intros [Hlen Hrows] Hijk. unfold at3.
  destruct (Nat.lt_ge_cases i n) as [Hi|Hi].
  - apply (at2_out n); [apply Forall_nth_in; [exact Hrows | lia] | lia].
  - rewrite (nth_overflow a) by lia. apply at2_nil.
Qed.

Lemma at3_nil (i j k : nat) : at3 [] i j k = 0.
Proof. unfold at3. destruct i; apply at2_nil. Qed.

Lemma at4_out (n : nat) (a : list (list (list (list R)))) (i j k l : nat) :
  shape4 n a -> (n <= i \/ n <= j \/ n <= k \/ n <= l)%nat ->
  at4 a i j k l = 0.
Proof.
  intros [Hlen Hrows] Hijkl. unfold at4.
  destruct (Nat.lt_ge_cases i n) as [Hi|Hi].
  - apply (at3_out n); [apply Forall_nth_in; [exact Hrows | lia] | lia].
  - rewrite (nth_overflow a) by lia. apply at3_nil.
Qed.

Section LoadedModels.

Variable float : str -> result R.

Lemma loaded_zero_entries (c : list (list str)) (coins : nat -> bool)
  (self : GeneralizedIsingModel) :
  load_model float c coins = OK self ->
  (forall i j, ~ (i < j)%nat -> at2 (J self) i j = 0) /\
  (forall i j k, ~ ((i < j)%nat /\ (j < k)%nat) -> at3 (K self) i j k = 0) /\
  (forall i j k l, ~ ((i < j)%nat /\ (j < k)%nat /\ (k < l)%nat) ->
     at4 (L self) i j k l = 0).
Proof.
  intro Hload.
  destruct (load_model_ok float c coins self Hload)
    as (_ & HN & [Hcons _] & _ & _ & HJ & HK & HL).
  destruct Hcons as (_ & SJ & SK & SL & _). rewrite HN in SJ, SK, SL.
  split; [|split].
  - intros i j Hn.
    destruct (Nat.lt_ge_cases i 4) as [Hi|Hi];
      [|apply (at2_out 4); [exact SJ | lia]].
    destruct (Nat.lt_ge_cases j 4) as [Hj|Hj];
      [|apply (at2_out 4); [exact SJ | lia]].
    rewrite HJ by assumption. apply entry_unsorted.
    rewrite sorted2. exact Hn.
  - intros i j k Hn.
    destruct (Nat.lt_ge_cases i 4) as [Hi|Hi];
      [|apply (at3_out 4); [exact SK | lia]].
    destruct (Nat.lt_ge_cases j 4) as [Hj|Hj];
      [|apply (at3_out 4); [exact SK | lia]].
    destruct (Nat.lt_ge_cases k 4) as [Hk|Hk];
      [|apply (at3_out 4); [exact SK | lia]].
    rewrite HK by assumption. apply entry_unsorted.
    rewrite sorted3. exact Hn.
  - intros i j k l Hn.
    destruct (Nat.lt_ge_cases i 4) as [Hi|Hi];
      [|apply (at4_out 4); [exact SL | lia]].
    destruct (Nat.lt_ge_cases j 4) as [Hj|Hj];
      [|apply (at4_out 4); [exact SL | lia]].
    destruct (Nat.lt_ge_cases k 4) as [Hk|Hk];
      [|apply (at4_out 4); [exact SL | lia]].
    destruct (Nat.lt_ge_cases l 4) as [Hl|Hl];
      [|apply (at4_out 4); [exact SL | lia]].
    rewrite HL by assumption. apply entry_unsorted.
    rewrite sorted4. exact Hn.
Qed.

(** X17. In a model loaded from a table, every coefficient whose index tuple
    repeats an index or is not strictly increasing is zero: J[i,j] = 0
    unless i < j, K[i,j,k] = 0 unless i < j < k, L[i,j,k,l] = 0 unless
    i < j < k < l. *)
Theorem load_model_strictly_upper (c : list (list str))
  (coins : nat -> bool) (self : GeneralizedIsingModel) :
  load_model float c coins = OK self ->
  (forall i j, ~ (i < j)%nat -> at2 (J self) i j = 0) /\
  (forall i j k, ~ ((i < j)%nat /\ (j < k)%nat) -> at3 (K self) i j k = 0) /\
  (forall i j k l, ~ ((i < j)%nat /\ (j < k)%nat /\ (k < l)%nat) ->
     at4 (L self) i j k l = 0).
Proof. exact (loaded_zero_entries c coins self). Qed.


End LoadedModels.

(** X10. The inner loop over [enumerate(sites)] returns the positions of the
    ['z'] characters in strictly increasing order, all below [len(sites)],
    and [num_zs] is their number. *)
Theorem scan_sites_positions (sites : str) :
  fst (scan_sites sites) = length (snd (scan_sites sites)) /\
  snd (scan_sites sites) = z_positions sites /\
  StronglySorted lt (snd (scan_sites sites)) /\
  Forall (fun p => (p < length sites)%nat) (snd (scan_sites sites)) /\
  (forall p, In p (snd (scan_sites sites)) <->
     nth_error sites p = Some "z"%char).
Proof.
  rewrite scan_sites_spec. cbn [fst snd].
  split; [reflexivity|]. split; [reflexivity|].
  split; [apply z_positions_from_sorted|]. split.
  - eapply Forall_impl; [|apply (z_positions_from_bounds 0)].
    simpl. intros p Hp. lia.
  - intro p. unfold z_positions.
    assert (H : forall i l q,
               In q (z_positions_from i l) <->
               (i <= q)%nat /\ nth_error l (q - i) = Some "z"%char).
    { intros i l. revert i. induction l as [|x rest IH]; intros i q.
      - simpl. split; [intros [] | intros [_ H]].
        destruct (q - i)%nat; discriminate H.
      - cbn [z_positions_from].
        destruct (Ascii.eqb_spec x "z"%char) as [->|Hx].
        + cbn [In]. rewrite IH. split.
          * intros [<-|[Hle Hn]].
            -- split; [lia|]. rewrite Nat.sub_diag. reflexivity.
            -- split; [lia|].
               replace (q - i)%nat with (S (q - S i)) by lia. exact Hn.
          * intros [Hle Hn].
            destruct (Nat.eq_dec i q) as [->|Hne]; [left; reflexivity|].
            right. split; [lia|].
            replace (q - i)%nat with (S (q - S i)) in Hn by lia. exact Hn.
        + rewrite IH. split.
          * intros [Hle Hn]. split; [lia|].
            replace (q - i)%nat with (S (q - S i)) by lia. exact Hn.
          * intros [Hle Hn].
            destruct (Nat.eq_dec i q) as [->|Hne].
            -- rewrite Nat.sub_diag in Hn. simpl in Hn. congruence.
            -- split; [lia|].
               replace (q - i)%nat with (S (q - S i)) in Hn by lia.
               exact Hn. }
    rewrite H, Nat.sub_0_r. split; [intros [_ Hn]; exact Hn|].
    intro Hn. split; [lia | exact Hn].
Qed.

(** ** The properties on concrete inputs *)

Lemma oversized_covers : covers oversized.
Proof.
  assert (H : exists e, energy oversized = OK e) by (eexists; reflexivity).
  destruct H as [e He]. exact (energy_ok_covers oversized e He).
Qed.

Lemma oversized_spins : Forall is_spin (spins oversized).
Proof.
  simpl. repeat apply Forall_cons; try apply Forall_nil;
    unfold is_spin; auto.
Qed.

Lemma energy_reads_leading_block_witness :
  leading_block oversized = leading_block (leading_block oversized) /\
  energy oversized = energy (leading_block oversized).
Proof.
  assert (H : leading_block oversized
              = leading_block (leading_block oversized)) by reflexivity.
  split; [exact H|].
  exact (energy_reads_leading_block oversized (leading_block oversized) H).
Defined.

Lemma mismatched_short : ~ covers_tensors mismatched.
Proof. intros (Hh & _). unfold covers1 in Hh. simpl in Hh. lia. Qed.

Lemma energy_returns_iff_covers_witness :
  ~ covers mismatched /\ energy mismatched = Raise IndexError.
Proof.
  assert (Hn : ~ covers mismatched)
    by (intros [Hten _]; exact (mismatched_short Hten)).
  split; [exact Hn|].
  apply (proj2 (energy_returns_iff_covers mismatched)). exact Hn.
Defined.

Lemma uncoupled_zero : zero_tensors uncoupled.
Proof.
  unfold zero_tensors, all_zero; simpl.
  repeat split; repeat constructor.
Qed.

Lemma uncoupled_covers : covers uncoupled.
Proof.
  assert (H : exists e, energy uncoupled = OK e) by (eexists; reflexivity).
  destruct H as [e He]. exact (energy_ok_covers uncoupled e He).
Qed.

Lemma energy_zero_couplings_witness :
  (zero_tensors uncoupled /\ covers uncoupled) /\ energy uncoupled = OK 3.
Proof.
  split; [split; [exact uncoupled_zero | exact uncoupled_covers]|].
  apply (energy_zero_couplings uncoupled).
  - exact uncoupled_zero.
  - exact uncoupled_covers.
Defined.

Lemma energy_diff_after_flip_witness :
  well_formed demo /\
  exists d,
    fst (energy_diff 1 demo) = OK d /\
    fst (energy_diff 1 (with_spins demo (flip_site (spins demo) (Z.to_nat 1))))
    = OK (- d).
Proof.
  split; [exact demo_well_formed|].
  apply (energy_diff_after_flip demo 1).
  - exact demo_well_formed.
  - simpl. lia.
Defined.

Lemma exhaustive_search_short_tensors_witness :
  (num_spins mismatched = N mismatched /\ ~ covers_tensors mismatched) /\
  exhaustive_search mismatched
  = (Raise IndexError, with_spins mismatched [-1; -1]%Z).
Proof.
  split; [split; [reflexivity | exact mismatched_short]|].
  apply (exhaustive_search_short_tensors mismatched).
  - reflexivity.
  - exact mismatched_short.
Defined.

Lemma table4_read :
  exists terms, read_generalized_ising_hamiltonian digit_float table4
                = OK terms.
Proof. eexists. reflexivity. Qed.

Lemma table4_load :
  exists self, load_model digit_float table4 (fun _ => true) = OK self.
Proof. eexists. reflexivity. Qed.

Lemma table2_read :
  exists terms, read_generalized_ising_hamiltonian digit_float table2
                = OK terms.
Proof. eexists. reflexivity. Qed.

Lemma read_returns_only_if_witness :
  (exists terms, read_generalized_ising_hamiltonian digit_float table4
                 = OK terms) /\
  Forall (acceptable_line digit_float (num_sites_of table4)) table4.
Proof.
  split; [exact table4_read|].
  apply (proj1 (read_returns_only_if digit_float table4)).
  exact table4_read.
Defined.

Lemma read_shapes_witness :
  exists terms,
    read_generalized_ising_hamiltonian digit_float table4 = OK terms /\
    length terms = 5%nat /\
    shape (nth 2 terms (np_zeros [])) = [4; 4]%nat.
Proof.
  destruct table4_read as [terms Hread].
  exists terms. split; [exact Hread|].
  destruct (read_shapes digit_float table4 terms Hread) as [Hlen Hshape].
  split; [exact Hlen|].
  apply (Hshape 2%nat). cbv. lia.
Defined.

Example table4_entry_1_3 :
  entry_after digit_float table4 (fun _ => 0) [1; 3]%nat = 4.
Proof. unfold entry_after. simpl. lra. Qed.

Lemma read_entries_witness :
  exists terms,
    read_generalized_ising_hamiltonian digit_float table4 = OK terms /\
    data (nth 2 terms (np_zeros [])) [1; 3]%nat
    = entry_after digit_float table4 (fun _ => 0) [1; 3]%nat.
Proof.
  destruct table4_read as [terms Hread].
  exists terms. split; [exact Hread|].
  apply (read_entries digit_float table4 terms [1; 3]%nat Hread).
  cbv. lia.
Defined.

Lemma read_support_witness :
  exists terms,
    read_generalized_ising_hamiltonian digit_float table4 = OK terms /\
    data (nth 2 terms (np_zeros [])) [1; 1]%nat = 0.
Proof.
  destruct table4_read as [terms Hread].
  exists terms. split; [exact Hread|].
  apply (read_support digit_float table4 terms [1; 1]%nat Hread).
  - cbv. lia.
  - rewrite sorted2. lia.
Defined.

Lemma load_model_well_formed_witness :
  exists self,
    load_model digit_float table4 (fun _ => true) = OK self /\
    N self = 4%nat /\ well_formed self.
Proof.
  destruct table4_load as [self Hload].
  exists self. split; [exact Hload|].
  destruct (load_model_well_formed digit_float table4 _ self Hload)
    as (_ & HN & Hwf & _).
  split; assumption.
Defined.

Lemma load_model_wrong_size_witness :
  (exists terms, read_generalized_ising_hamiltonian digit_float table2
                 = OK terms) /\
  num_sites_of table2 <> 4%nat /\
  load_model digit_float table2 (fun _ => true) = Raise ValueError.
Proof.
  assert (Hn : num_sites_of table2 <> 4%nat) by (cbv; lia).
  split; [exact table2_read|]. split; [exact Hn|].
  destruct table2_read as [terms Hread].
  exact (load_model_wrong_size digit_float table2 _ terms Hread Hn).
Defined.

Lemma load_model_strictly_upper_witness :
  exists self,
    load_model digit_float table4 (fun _ => true) = OK self /\
    at2 (J self) 3 1 = 0 /\ at2 (J self) 1 1 = 0.
Proof.
  destruct table4_load as [self Hload].
  exists self. split; [exact Hload|].
  destruct (load_model_strictly_upper digit_float table4 _ self Hload)
    as (HJ & _).
  split; apply HJ; lia.
Defined.

